(** * AzIndex: the documentation parser [scripts/parse_docs.py]

    A shallow embedding of the Python script that turns a tree of Markdown
    cmdlet documents into the index files of the AzIndex site, and the
    properties of its components: the category mapper, the front-matter
    parser, the section and code-block extractors, the document classifier,
    the version-directory resolver and the aggregating [main].

    Conventions of the embedding.
    - A Python [str] is a list of characters [str := list ascii]; a character
      stands for the Unicode code point of the same number, so the model
      covers text over U+0000..U+00FF.  The character classes below are
      those of CPython on that range ([str.isspace], [str.splitlines],
      [str.lower], the [re] classes in Unicode mode).
    - A [dict] is a [gmap]; the insertion order of keys, which only shows in
      the order of keys in the JSON text, is not modelled.
    - Regular expressions are embedded as the backtracking matchers they
      denote, one function per quantifier, in the order in which [re] tries
      the alternatives.
    - Exceptions and effects are explicit: functions that raise return a sum,
      and [main] returns its outcome with the trace of its effects. *)

From Stdlib Require Import Ascii String NArith Sorted.
From stdpp Require Import gmap list strings fin_maps sorting.

Local Open Scope list_scope.
Local Open Scope bool_scope.

Abbreviation str := (list ascii).

(** A string literal as a [str]. *)
Definition lit (s : string) : str := list_ascii_of_string s.

(** ** Characters *)

Definition LF : ascii := ascii_of_nat 10.
Definition CR : ascii := ascii_of_nat 13.

Definition code (c : ascii) : N := N_of_ascii c.

Definition in_range (lo hi : N) (c : ascii) : bool :=
  (lo <=? code c)%N && (code c <=? hi)%N.

(** [str.isspace], also the class [\s] of [re]:
    U+0009..U+000D, U+001C..U+0020, U+0085, U+00A0. *)
Definition is_space (c : ascii) : bool :=
  in_range 9 13 c || in_range 28 32 c || (code c =? 133)%N || (code c =? 160)%N.

(** The line boundaries of [str.splitlines]:
    LF, VT, FF, CR, U+001C..U+001E and U+0085 (CR LF counts once). *)
Definition is_linebreak (c : ascii) : bool :=
  in_range 10 13 c || in_range 28 30 c || (code c =? 133)%N.

Definition is_upper (c : ascii) : bool := in_range 65 90 c.   (* [A-Z] *)
Definition is_lower (c : ascii) : bool := in_range 97 122 c.  (* [a-z] *)
Definition is_alpha (c : ascii) : bool := is_upper c || is_lower c. (* [A-Za-z] *)
Definition is_digit (c : ascii) : bool := in_range 48 57 c.   (* \d *)

(** [str.lower] on one character: A-Z and the Latin-1 capitals
    U+00C0..U+00DE (but U+00D7) move up by 32. *)
Definition to_lower (c : ascii) : ascii :=
  if is_upper c || (in_range 192 222 c && negb (code c =? 215)%N)
  then ascii_of_N (code c + 32) else c.

(** ** Strings *)

Definition lower (s : str) : str := map to_lower s.

(** [s.startswith(p)] *)
Fixpoint starts_with (p s : str) : bool :=
  match p, s with
  | [], _ => true
  | _ :: _, [] => false
  | a :: p', b :: s' => bool_decide (a = b) && starts_with p' s'
  end.

(** [s.endswith(p)] *)
Definition ends_with (p s : str) : bool :=
  starts_with (reverse p) (reverse s).

(** [s.removeprefix(p)] *)
Definition removeprefix (p s : str) : str :=
  if starts_with p s then drop (length p) s else s.

(** [needle in hay] *)
Fixpoint contains (needle hay : str) : bool :=
  starts_with needle hay ||
  match hay with
  | [] => false
  | _ :: hay' => contains needle hay'
  end.

(** A regex literal matched under [re.IGNORECASE] at the head of [s]. *)
Definition starts_with_ci (p s : str) : bool :=
  starts_with (lower p) (lower (take (length p) s)).

(** [s.lstrip()], [s.rstrip()], [s.strip()], and the same for a set of
    characters given as a predicate. *)
Fixpoint lstrip_by (f : ascii → bool) (s : str) : str :=
  match s with
  | [] => []
  | c :: s' => if f c then lstrip_by f s' else s
  end.

Definition rstrip_by (f : ascii → bool) (s : str) : str :=
  reverse (lstrip_by f (reverse s)).

Definition strip_by (f : ascii → bool) (s : str) : str :=
  rstrip_by f (lstrip_by f s).

Definition strip (s : str) : str := strip_by is_space s.

(** [s.splitlines()]: [after_cr] is set just after a CR, so that the LF of a
    CR LF pair is not a boundary of its own; [cur] is the line being read. *)
Fixpoint splitlines_go (after_cr : bool) (cur : str) (s : str) : list str :=
  match s with
  | [] => match cur with [] => [] | _ => [cur] end
  | c :: s' =>
      if after_cr && bool_decide (c = LF) then splitlines_go false cur s'
      else if is_linebreak c then cur :: splitlines_go (bool_decide (c = CR)) [] s'
      else splitlines_go false (cur ++ [c]) s'
  end.

Definition splitlines (s : str) : list str := splitlines_go false [] s.

(** [sep.join(parts)] *)
Fixpoint join (sep : str) (parts : list str) : str :=
  match parts with
  | [] => []
  | [p] => p
  | p :: rest => p ++ sep ++ join sep rest
  end.

(** [s.split(sep, 1)] for a one-character separator: [None] stands for the
    one-element result (no separator in [s]), [Some (a, b)] for [[a, b]]. *)
Fixpoint split_first (sep : ascii) (s : str) : option (str * str) :=
  match s with
  | [] => None
  | c :: s' =>
      if bool_decide (c = sep) then Some ([], s')
      else match split_first sep s' with
           | Some (a, b) => Some (c :: a, b)
           | None => None
           end
  end.

(** The lines of an example document, joined by LF. *)
Definition text_of (ls : list string) : str := join [LF] (map lit ls).

(** ** The category mapper *)

Definition CATEGORY_MAP : list (str * str) :=
  map (λ p : string * string, (lit p.1, lit p.2))
  [ ("Accounts", "Authentication");
    ("Compute", "Compute");
    ("Network", "Networking");
    ("Storage", "Storage");
    ("Sql", "Database");
    ("CosmosDb", "Database");
    ("Redis", "Database");
    ("Monitor", "Monitoring");
    ("Advisor", "Governance");
    ("Policy", "Governance");
    ("Security", "Security");
    ("KeyVault", "Security");
    ("Identity", "Identity");
    ("Aks", "Containers");
    ("ContainerInstance", "Containers");
    ("ContainerRegistry", "Containers");
    ("App", "App Services");
    ("Websites", "App Services");
    ("Functions", "App Services");
    ("Logic", "Integration");
    ("ServiceBus", "Messaging");
    ("EventHub", "Messaging");
    ("EventGrid", "Messaging");
    ("NotificationHubs", "Messaging");
    ("ApiManagement", "API Management");
    ("Resources", "Resources");
    ("ResourceMover", "Resources");
    ("Cdn", "Networking");
    ("Dns", "Networking");
    ("FrontDoor", "Networking");
    ("TrafficManager", "Networking");
    ("VirtualWan", "Networking");
    ("PowerBIEmbedded", "Analytics");
    ("StreamAnalytics", "Analytics");
    ("MachineLearning", "AI & ML");
    ("CognitiveServices", "AI & ML");
    ("DataFactory", "Data");
    ("DataLakeStore", "Data");
    ("Synapse", "Data");
    ("Databricks", "Data");
    ("Batch", "Compute");
    ("HDInsight", "Compute");
    ("ServiceFabric", "Compute");
    ("Automation", "Management");
    ("Backup", "Management");
    ("RecoveryServices", "Management");
    ("OperationalInsights", "Monitoring") ]%string.

(** The first loop of [get_category]: the first rule whose key is the
    suffix, case apart. *)
Fixpoint exact_pass (suffix : str) (rules : list (str * str)) : option str :=
  match rules with
  | [] => None
  | (key, cat) :: rest =>
      if bool_decide (lower suffix = lower key) then Some cat
      else exact_pass suffix rest
  end.

(** The second loop: the first rule whose key occurs in the suffix. *)
Fixpoint partial_pass (suffix : str) (rules : list (str * str)) : option str :=
  match rules with
  | [] => None
  | (key, cat) :: rest =>
      if contains (lower key) (lower suffix) then Some cat
      else partial_pass suffix rest
  end.

Definition get_category_with (rules : list (str * str)) (module_name : str) : str :=
  let suffix := removeprefix (lit "Az.") module_name in
  match exact_pass suffix rules with
  | Some cat => cat
  | None =>
      match partial_pass suffix rules with
      | Some cat => cat
      | None => lit "Other"
      end
  end.

Definition get_category (module_name : str) : str :=
  get_category_with CATEGORY_MAP module_name.

(** ** The front-matter parser *)

(** [(.*?\n)---] under [re.DOTALL]: the lazy group grows one character at a
    time until an LF that [---] follows. *)
Fixpoint fm_body (s : str) : option str :=
  match s with
  | [] => None
  | c :: s' =>
      if bool_decide (c = LF) && starts_with (lit "---") s' then Some [c]
      else match fm_body s' with
           | Some g => Some (c :: g)
           | None => None
           end
  end.

(** [\s*\n(.*?\n)---]: the greedy [\s*] first takes the character, and gives
    it back when the rest fails. *)
Fixpoint fm_open (s : str) : option str :=
  match s with
  | [] => None
  | c :: s' =>
      match (if is_space c then fm_open s' else None) with
      | Some g => Some g
      | None => if bool_decide (c = LF) then fm_body s' else None
      end
  end.

(** [re.match(r'^---\s*\n(.*?\n)---', text, re.DOTALL)], as [m.group(1)]. *)
Definition fm_match (text : str) : option str :=
  if starts_with (lit "---") text then fm_open (drop 3 text) else None.

Definition COLON : ascii := ":"%char.

(** The two quote characters, U+0022 and U+0027, that the second [strip] of
    a value removes. *)
Definition DQUOTE : ascii := ascii_of_nat 34.
Definition SQUOTE : ascii := ascii_of_nat 39.

Definition is_quote (c : ascii) : bool :=
  bool_decide (c = DQUOTE) || bool_decide (c = SQUOTE).

(** The body of the loop over the lines of the block. *)
Definition fm_line (result : gmap str str) (line : str) : gmap str str :=
  match split_first COLON line with
  | Some (k, v) => <[strip k := strip_by is_quote (strip v)]> result
  | None => result
  end.

Definition parse_front_matter (text : str) : gmap str str :=
  match fm_match text with
  | None => ∅
  | Some block => foldl fm_line ∅ (splitlines block)
  end.

(** ** The section extractor *)

(** [(.*?)(?=\n## |\Z)]: the lazy group stops before the first LF followed
    by [## ], or at the end of the text. *)
Fixpoint sec_body (s : str) : str :=
  match s with
  | [] => []
  | c :: s' => if starts_with (LF :: lit "## ") s then [] else c :: sec_body s'
  end.

(** [\s*\n(.*?)(?=\n## |\Z)], with the greedy [\s*]. *)
Fixpoint sec_open (s : str) : option str :=
  match s with
  | [] => None
  | c :: s' =>
      match (if is_space c then sec_open s' else None) with
      | Some g => Some g
      | None => if bool_decide (c = LF) then Some (sec_body s') else None
      end
  end.

(** The pattern tried at the head of [s]; [re.escape] makes the section name
    a literal, matched case apart because of [re.IGNORECASE]. *)
Definition sec_match_at (section_name : str) (s : str) : option str :=
  let heading := lit "## " ++ section_name in
  if starts_with_ci heading s then sec_open (drop (length heading) s) else None.

(** [re.search]: the leftmost position where the pattern matches. *)
Fixpoint sec_search (section_name : str) (s : str) : option str :=
  match sec_match_at section_name s with
  | Some g => Some g
  | None =>
      match s with
      | [] => None
      | _ :: s' => sec_search section_name s'
      end
  end.

Definition extract_section (text section_name : str) : str :=
  match sec_search section_name text with
  | Some g => strip g
  | None => []
  end.

(** ** The code-block extractor *)

Definition FENCE : str := lit "```".

(** [(.*?)```]: the group and the number of characters matched. *)
Fixpoint cb_body (s : str) : option (str * nat) :=
  if starts_with FENCE s then Some ([], 3)
  else match s with
       | [] => None
       | c :: s' =>
           match cb_body s' with
           | Some (g, n) => Some (c :: g, S n)
           | None => None
           end
       end.

(** [\s*\n(.*?)```] *)
Fixpoint cb_open (s : str) : option (str * nat) :=
  match s with
  | [] => None
  | c :: s' =>
      match (if is_space c then cb_open s' else None) with
      | Some (g, n) => Some (g, S n)
      | None =>
          if bool_decide (c = LF)
          then match cb_body s' with
               | Some (g, n) => Some (g, S n)
               | None => None
               end
          else None
      end
  end.

(** [(?:powershell|ps1|posh)?]: the alternatives in their order, then the
    empty alternative of [?]; each followed by the rest of the pattern. *)
Fixpoint cb_tag (tags : list str) (s : str) : option (str * nat) :=
  match tags with
  | [] => cb_open s
  | tag :: tags' =>
      match (if starts_with_ci tag s
             then cb_open (drop (length tag) s) else None) with
      | Some (g, n) => Some (g, length tag + n)
      | None => cb_tag tags' s
      end
  end.

Definition CB_TAGS : list str := [lit "powershell"; lit "ps1"; lit "posh"].

(** The whole pattern tried at the head of [s]: the group and the length of
    the match. *)
Definition cb_match_at (s : str) : option (str * nat) :=
  if starts_with FENCE s
  then match cb_tag CB_TAGS (drop 3 s) with
       | Some (g, n) => Some (g, 3 + n)
       | None => None
       end
  else None.

(** [re.findall]: matches from left to right, each search starting where
    the previous match ended; [skip] counts the characters of the current
    match that are still to be passed. *)
Fixpoint cb_findall (skip : nat) (s : str) : list str :=
  match s with
  | [] => []
  | _ :: s' =>
      match skip with
      | S k => cb_findall k s'
      | O =>
          match cb_match_at s with
          | Some (g, n) => g :: cb_findall (pred n) s'
          | None => cb_findall 0 s'
          end
      end
  end.

Definition is_comment_line (l : str) : bool :=
  starts_with (lit "#") (strip l).

(** One turn of the loop body, up to the test [if code]. *)
Definition clean_block (b : str) : str :=
  let lines := filter (λ l, is_comment_line l = false) (splitlines (strip b)) in
  strip (join [LF] lines).

(** The loop [for b in blocks[:max_blocks]] with its list [cleaned]. *)
Fixpoint clean_loop (blocks : list str) (cleaned : list str) : list str :=
  match blocks with
  | [] => cleaned
  | b :: rest =>
      let code := clean_block b in
      match code with
      | [] => clean_loop rest cleaned
      | _ :: _ => clean_loop rest (cleaned ++ [code])
      end
  end.

(** [max_blocks] is a count; a negative bound, which Python would read as a
    slice from the end, is no input of the model. *)
Definition extract_code_blocks (section_text : str) (max_blocks : nat) : list str :=
  clean_loop (take max_blocks (cb_findall 0 section_text)) [].

(** ** The document classifier *)

(** The longest prefix of [s] in the class [f], and what follows it: a
    greedy [[...]*] whose next pattern character is outside the class. *)
Fixpoint span_by (f : ascii → bool) (s : str) : str * str :=
  match s with
  | [] => ([], [])
  | c :: s' =>
      if f c then let '(a, b) := span_by f s' in (c :: a, b) else ([], s)
  end.

Definition nonempty (s : str) : bool :=
  match s with [] => false | _ :: _ => true end.

(** [re.match(r'^Az\.[A-Za-z]+$', fname)]; [$] also matches just before an
    LF that ends the string. *)
Definition is_module_index (fname : str) : bool :=
  starts_with (lit "Az.") fname &&
  let '(word, rest) := span_by is_alpha (drop 3 fname) in
  nonempty word && (bool_decide (rest = []) || bool_decide (rest = [LF])).

(** [VERB_RE.match(name)], as [vm.group(1)]; the pattern
    [^([A-Z][a-z]+)-Az]. *)
Definition VERB_RE_match (name : str) : option str :=
  match name with
  | [] => None
  | c :: s =>
      if is_upper c then
        let '(word, rest) := span_by is_lower s in
        if nonempty word && starts_with (lit "-Az") rest
        then Some (c :: word) else None
      else None
  end.

(** [re.match(r'^[A-Z][a-z]+-Az', name)] as a truth value: the pattern of
    [VERB_RE] without its group. *)
Definition is_cmdlet_name (name : str) : bool :=
  match VERB_RE_match name with Some _ => true | None => false end.

(** [\[([^\]]+)\]\([^)]+\)] tried at the head of [s]: the label and the
    length of the match. *)
Definition link_match_at (s : str) : option (str * nat) :=
  match s with
  | c :: s1 =>
      if bool_decide (c = "["%char) then
        let '(label, r1) := span_by (λ x, negb (bool_decide (x = "]"%char))) s1 in
        if nonempty label && starts_with (lit "](") r1 then
          let '(url, r2) := span_by (λ x, negb (bool_decide (x = ")"%char))) (drop 2 r1) in
          if nonempty url && starts_with (lit ")") r2
          then Some (label, length label + length url + 4)
          else None
        else None
      else None
  | [] => None
  end.

(** [re.sub] of the link pattern by its label, matches from left to right;
    [skip] as in [cb_findall]. *)
Fixpoint sub_links (skip : nat) (s : str) : str :=
  match s with
  | [] => []
  | c :: s' =>
      match skip with
      | S k => sub_links k s'
      | O =>
          match link_match_at s with
          | Some (label, n) => label ++ sub_links (pred n) s'
          | None => c :: sub_links 0 s'
          end
      end
  end.

(** The class [[*_`]]. *)
Definition is_markup (c : ascii) : bool :=
  bool_decide (c = "*"%char) || bool_decide (c = "_"%char) || bool_decide (c = "`"%char).

(** [Path(name).stem]: the name up to its last dot, when that dot is neither
    the first nor the last character. *)
Fixpoint rfind_dot (s : str) : option nat :=
  match s with
  | [] => None
  | c :: s' =>
      match rfind_dot s' with
      | Some i => Some (S i)
      | None => if bool_decide (c = "."%char) then Some 0 else None
      end
  end.

Definition stem (name : str) : str :=
  match rfind_dot name with
  | Some i => if (0 <? i) && (i <? length name - 1) then take i name else name
  | None => name
  end.

Record CommandDoc := {
  name : str;
  module : str;
  description : str;
  syntax : str;
  examples : list str
}.

(** The description: the first line of the SYNOPSIS section, links replaced
    by their labels, markup characters removed.  A non-empty section has a
    first line, so the index [0] is never out of range. *)
Definition description_of (text : str) : str :=
  let synopsis_sec := extract_section text (lit "SYNOPSIS") in
  let description :=
    match synopsis_sec with
    | [] => []
    | _ :: _ => strip (hd [] (splitlines synopsis_sec))
    end in
  let description := sub_links 0 description in
  strip (filter (λ c, is_markup c = false) description).

(** [parse_cmdlet_doc] after [read_text]: [parent] is the name of the
    directory of the file, [file_name] the name of the file. *)
Definition parse_cmdlet_text (parent file_name text : str) : option CommandDoc :=
  let front := parse_front_matter text in
  let fname := stem file_name in
  if is_module_index fname then None else
  let name :=
    match front !! lit "title" with
    | Some ((_ :: _) as title) => title
    | _ => fname
    end in
  if negb (is_cmdlet_name name) then None else
  let module := default [] (front !! lit "Module Name") in
  let module :=
    if negb (nonempty module) && starts_with (lit "Az.") parent
    then parent else module in
  if negb (nonempty module) || negb (starts_with (lit "Az.") module) then None else
  let syntax_blocks := extract_code_blocks (extract_section text (lit "SYNTAX")) 1 in
  Some {| name := name;
          module := module;
          description := description_of text;
          syntax := hd [] syntax_blocks;
          examples := extract_code_blocks (extract_section text (lit "EXAMPLES")) 3 |}.

(** ** The file tree *)

#[warnings="-register-all"]
Inductive node :=
  | File (file_name : str) (text : str)
  | Dir (dir_name : str) (children : list node).

Definition node_name (d : node) : str :=
  match d with File nm _ => nm | Dir nm _ => nm end.

Definition is_dir (d : node) : bool :=
  match d with File _ _ => false | Dir _ _ => true end.

(** The entries of a directory, in the order [iterdir] yields them. *)
Definition entries (d : node) : list node :=
  match d with File _ _ => [] | Dir _ cs => cs end.

Inductive error :=
  | FileNotFoundError
  | NotADirectoryError
  | IsADirectoryError.

(** [parse_cmdlet_doc(filepath)]: reading a directory raises. *)
Definition parse_cmdlet_doc (parent : str) (file : node) : error + option CommandDoc :=
  match file with
  | File file_name text => inr (parse_cmdlet_text parent file_name text)
  | Dir _ _ => inl IsADirectoryError
  end.

(** ** The version resolver *)

(** [re.findall(r'\d+', s)]: the maximal runs of digits; [cur] is the run
    being read. *)
Fixpoint digit_runs (cur : str) (s : str) : list str :=
  match s with
  | [] => match cur with [] => [] | _ => [cur] end
  | c :: s' =>
      if is_digit c then digit_runs (cur ++ [c]) s'
      else match cur with
           | [] => digit_runs [] s'
           | _ => cur :: digit_runs [] s'
           end
  end.

(** [int(x)] on a run of digits. *)
Definition int_of_digits (x : str) : N :=
  foldl (λ acc c, 10 * acc + (code c - 48))%N 0%N x.

Definition ver_key (d : node) : list N :=
  map int_of_digits (digit_runs [] (node_name d)).

(** [a < b] on tuples of integers. *)
Fixpoint tuple_lt (a b : list N) : bool :=
  match a, b with
  | _, [] => false
  | [], _ :: _ => true
  | x :: a', y :: b' =>
      if (x <? y)%N then true
      else if (y <? x)%N then false
      else tuple_lt a' b'
  end.

(** [max(best :: rest, key=key)]: a later item replaces the current one only
    when its key is greater. *)
Fixpoint max_by {A} (key : A → list N) (best : A) (rest : list A) : A :=
  match rest with
  | [] => best
  | x :: rest' =>
      max_by key (if tuple_lt (key best) (key x) then x else best) rest'
  end.

Definition is_azps (d : node) : bool :=
  is_dir d && starts_with (lit "azps-") (node_name d).

(** The loop that looks one level deeper. *)
Definition deeper_candidates (subs : list node) : list node :=
  foldl (λ candidates sub,
           if is_dir sub
           then candidates ++ filter (λ d, is_azps d = true) (entries sub)
           else candidates) [] subs.

Definition find_latest_azps_dir (docs_root : node) : error + node :=
  match docs_root with
  | File _ _ => inl NotADirectoryError
  | Dir _ cs =>
      let candidates := filter (λ d, is_azps d = true) cs in
      let candidates :=
        match candidates with
        | [] => deeper_candidates cs
        | _ :: _ => candidates
        end in
      match candidates with
      | [] => inl FileNotFoundError
      | c :: rest => inr (max_by ver_key c rest)
      end
  end.

(** ** The aggregator and the writer *)

(** An entry of the manifest; the fields are the keys [n], [v], [m], [c]
    and [e] of the dictionary in the source. *)
Record ManifestEntry := {
  entry_n : str;
  entry_v : str;
  entry_m : str;
  entry_c : str;
  entry_e : bool
}.

(** A value of [module_cmdlets]. *)
Record CmdletData := {
  cmdlet_syntax : str;
  cmdlet_examples : list str
}.

(** A value of [modules_data]. *)
Record ModuleBundle := {
  bundle_module : str;
  bundle_version : str;
  bundle_cmdlets : gmap str CmdletData
}.

(** What [json.dump] is given for each kind of output file; the JSON text
    itself is not modelled. *)
Inductive output_file :=
  | ManifestJson (version : str) (d : list ManifestEntry)
  | DescriptionsJson (descriptions : gmap str str)
  | ModuleJson (data : ModuleBundle).

Inductive message :=
  | MsgUsage
  | MsgScanning (docs_root : str)
  | MsgFound (dir_name version : str)
  | MsgProcessed (cmdlets modules : nat)
  | MsgWroteManifest (count : nat)
  | MsgWroteDescriptions (count : nat)
  | MsgWroteModules (count : nat).

(** The effects of a run, in the order in which they happen. *)
Inductive event :=
  | Print (msg : message)
  | Mkdir (path : str)
  | WriteFile (path : str) (content : output_file).

Inductive outcome :=
  | Done
  | Exit (status : Z)
  | Raised (e : error).

(** The files written by a trace. *)
Fixpoint written (tr : list event) : list (str * output_file) :=
  match tr with
  | [] => []
  | WriteFile path content :: tr' => (path, content) :: written tr'
  | _ :: tr' => written tr'
  end.

(** [a < b] on strings: the order of [sorted] on the paths of one
    directory. *)
Fixpoint str_lt (a b : str) : bool :=
  match a, b with
  | _, [] => false
  | [], _ :: _ => true
  | x :: a', y :: b' =>
      if (code x <? code y)%N then true
      else if (code y <? code x)%N then false
      else str_lt a' b'
  end.

(** [sorted]: a stable sort by name. *)
Fixpoint insert_by_name (x : node) (l : list node) : list node :=
  match l with
  | [] => [x]
  | y :: l' =>
      if str_lt (node_name y) (node_name x) then y :: insert_by_name x l'
      else x :: l
  end.

Definition sorted (l : list node) : list node := foldr insert_by_name [] l.

(** [d.glob('*.md')]: the entries of [d] whose name ends in [.md]. *)
Definition is_md (f : node) : bool := ends_with (lit ".md") (node_name f).

Definition glob_md (d : node) : list node :=
  filter (λ f, is_md f = true) (entries d).

(** [d.rglob('*.md')]: the same at every depth below [d].  [pathlib] walks
    the directories in pre-order and lists each of them in turn, so the
    entries of a directory come first, in the order of its listing, and
    then what lies below each of its entries, in the same order. *)
Fixpoint below (d : node) : list node :=
  match d with
  | File _ _ => []
  | Dir _ cs =>
      cs ++
      (fix go (cs : list node) : list node :=
         match cs with
         | [] => []
         | c :: cs' => below c ++ go cs'
         end) cs
  end.

Definition rglob_md (d : node) : list node :=
  filter (λ f, is_md f = true) (below d).

(** The loop that builds [module_version_map]. *)
Fixpoint version_loop (files : list node) (module_version_map : gmap str str)
  : error + gmap str str :=
  match files with
  | [] => inr module_version_map
  | Dir _ _ :: _ => inl IsADirectoryError
  | File _ text :: rest =>
      let fm := parse_front_matter text in
      version_loop rest
        match fm !! lit "Module Version", fm !! lit "Module Name" with
        | Some mv, Some mn =>
            match module_version_map !! mn with
            | None => <[mn := mv]> module_version_map
            | Some _ => module_version_map
            end
        | _, _ => module_version_map
        end
  end.

(** The three dictionaries and lists that the scan fills. *)
Record scan_state := {
  manifest_entries : list ManifestEntry;
  descriptions : gmap str str;
  modules_data : gmap str ModuleBundle
}.

Definition verb_of (cname : str) : str :=
  match VERB_RE_match cname with
  | Some verb => verb
  | None => lit "Other"
  end.

(** The body of the loop over the documents of a module, for a document
    that was accepted. *)
Definition record_cmdlet (module_name category : str) (result : CommandDoc)
    (st : list ManifestEntry * gmap str str * gmap str CmdletData)
  : list ManifestEntry * gmap str str * gmap str CmdletData :=
  let '(manifest_entries, descriptions, module_cmdlets) := st in
  let cname := name result in
  let manifest_entries :=
    manifest_entries ++
      [{| entry_n := cname;
          entry_v := verb_of cname;
          entry_m := module_name;
          entry_c := category;
          entry_e := match examples result with [] => false | _ :: _ => true end |}] in
  let descriptions :=
    match description result with
    | [] => descriptions
    | _ :: _ => <[cname := description result]> descriptions
    end in
  let module_cmdlets :=
    <[cname := {| cmdlet_syntax := syntax result;
                  cmdlet_examples := examples result |}]> module_cmdlets in
  (manifest_entries, descriptions, module_cmdlets).

(** The loop over the sorted documents of a module. *)
Fixpoint cmdlet_loop (module_name category : str) (files : list node)
    (st : list ManifestEntry * gmap str str * gmap str CmdletData)
  : error + (list ManifestEntry * gmap str str * gmap str CmdletData) :=
  match files with
  | [] => inr st
  | md_file :: rest =>
      match parse_cmdlet_doc module_name md_file with
      | inl e => inl e
      | inr None => cmdlet_loop module_name category rest st
      | inr (Some result) =>
          cmdlet_loop module_name category rest
            (record_cmdlet module_name category result st)
      end
  end.

(** The loop over the sorted entries of the version directory. *)
Fixpoint module_loop (module_version_map : gmap str str) (dirs : list node)
    (st : scan_state) : error + scan_state :=
  match dirs with
  | [] => inr st
  | mod_dir :: rest =>
      if negb (is_dir mod_dir) then module_loop module_version_map rest st
      else if negb (starts_with (lit "Az.") (node_name mod_dir))
      then module_loop module_version_map rest st
      else
        let module_name := node_name mod_dir in
        let mod_version := default (lit "0.0.0") (module_version_map !! module_name) in
        let category := get_category module_name in
        match cmdlet_loop module_name category (sorted (glob_md mod_dir))
                (manifest_entries st, descriptions st, ∅) with
        | inl e => inl e
        | inr (manifest_entries, descriptions, module_cmdlets) =>
            module_loop module_version_map rest
              {| manifest_entries := manifest_entries;
                 descriptions := descriptions;
                 modules_data :=
                   if bool_decide (module_cmdlets = ∅) then modules_data st
                   else <[module_name :=
                            {| bundle_module := module_name;
                               bundle_version := mod_version;
                               bundle_cmdlets := module_cmdlets |}]>
                          (modules_data st) |}
        end
  end.

(** [re.search(r'azps-(\d+\.\d+\.\d+)', s)], as [group(1)]. *)
Definition version_match_at (s : str) : option str :=
  if starts_with (lit "azps-") s then
    let '(d1, r1) := span_by is_digit (drop 5 s) in
    if nonempty d1 && starts_with (lit ".") r1 then
      let '(d2, r2) := span_by is_digit (drop 1 r1) in
      if nonempty d2 && starts_with (lit ".") r2 then
        let '(d3, _) := span_by is_digit (drop 1 r2) in
        if nonempty d3 then Some (d1 ++ lit "." ++ d2 ++ lit "." ++ d3)
        else None
      else None
    else None
  else None.

Fixpoint version_search (s : str) : option str :=
  match version_match_at s with
  | Some v => Some v
  | None =>
      match s with
      | [] => None
      | _ :: s' => version_search s'
      end
  end.

(** Lines 206 to 259 of the script: the two scans of the version
    directory. *)
Definition scan (azps_dir : node) : error + scan_state :=
  match version_loop (rglob_md azps_dir) ∅ with
  | inl e => inl e
  | inr module_version_map =>
      module_loop module_version_map (sorted (entries azps_dir))
        {| manifest_entries := []; descriptions := ∅; modules_data := ∅ |}
  end.

(** The output paths, relative to the root of the repository. *)
Definition OUT_DIR : str := lit "public/data".
Definition MODULES_DIR : str := lit "public/data/modules".
Definition MANIFEST_PATH : str := lit "public/data/manifest.json".
Definition DESCRIPTIONS_PATH : str := lit "public/data/descriptions.json".
Definition module_path (mod_name : str) : str :=
  lit "public/data/modules/" ++ mod_name ++ lit ".json".

(** [modules_data.items()]: a dictionary lists its keys in the order in
    which they were first set.  The loop over the sorted module directories
    sets the keys of [modules_data] in the ascending order of the names, so
    its items come by ascending key. *)
Fixpoint insert_by_key {V} (x : str * V) (l : list (str * V)) : list (str * V) :=
  match l with
  | [] => [x]
  | y :: l' => if str_lt y.1 x.1 then y :: insert_by_key x l' else x :: l
  end.

Definition items_by_key {V} (m : gmap str V) : list (str * V) :=
  foldr insert_by_key [] (map_to_list m).

(** The writes at the end of [main]. *)
Definition write_all (version : str) (st : scan_state) : list event :=
  [ Print (MsgProcessed (length (manifest_entries st)) (size (modules_data st)));
    WriteFile MANIFEST_PATH (ManifestJson version (manifest_entries st));
    Print (MsgWroteManifest (length (manifest_entries st)));
    WriteFile DESCRIPTIONS_PATH (DescriptionsJson (descriptions st));
    Print (MsgWroteDescriptions (size (descriptions st))) ]
  ++ map (λ kv : str * ModuleBundle, WriteFile (module_path kv.1) (ModuleJson kv.2))
       (items_by_key (modules_data st))
  ++ [ Print (MsgWroteModules (size (modules_data st))) ].

(** [main]: [argv] is [sys.argv], and [resolve] gives the tree that a path
    of the file system denotes, if it exists. *)
Definition main (argv : list str) (resolve : str → option node)
  : outcome * list event :=
  match argv with
  | [] | [_] => (Exit 1, [Print MsgUsage])
  | _ :: docs_root :: _ =>
      let tr := [Mkdir MODULES_DIR; Print (MsgScanning docs_root)] in
      match resolve docs_root with
      | None => (Raised FileNotFoundError, tr)
      | Some root =>
          match find_latest_azps_dir root with
          | inl e => (Raised e, tr)
          | inr azps_dir =>
              let version :=
                default (lit "0.0.0") (version_search (node_name azps_dir)) in
              let tr := tr ++ [Print (MsgFound (node_name azps_dir) version)] in
              match scan azps_dir with
              | inl e => (Raised e, tr)
              | inr st => (Done, tr ++ write_all version st)
              end
          end
      end
  end.

(** ** Vocabulary of the statements *)

(** A rule matches a suffix exactly, or by inclusion of its key. *)
Definition exact_rule (suffix : str) (rule : str * str) : Prop :=
  lower suffix = lower rule.1.

Definition partial_rule (suffix : str) (rule : str * str) : Prop :=
  ∃ pre post, lower suffix = pre ++ lower rule.1 ++ post.

(** [rules !! i] is the first rule of the list with the property [P]. *)
Definition first_rule (P : str * str → Prop) (rules : list (str * str))
    (i : nat) (rule : str * str) : Prop :=
  rules !! i = Some rule ∧ P rule ∧
  ∀ j r, j < i → rules !! j = Some r → ¬ P r.

(** The order of Python on tuples of integers, as a relation. *)
Inductive lex_lt : list N → list N → Prop :=
  | lex_lt_nil y b : lex_lt [] (y :: b)
  | lex_lt_head x y a b : (x < y)%N → lex_lt (x :: a) (y :: b)
  | lex_lt_tail x a b : lex_lt a b → lex_lt (x :: a) (x :: b).

Definition lex_le (a b : list N) : Prop := a = b ∨ lex_lt a b.

(** A directory whose name starts with [azps-]. *)
Definition versioned_dir (d : node) : Prop :=
  is_dir d = true ∧ lit "azps-" `prefix_of` node_name d.

(** The candidates among the children of the root, among the children of
    its child directories, and those that the resolver considers: the
    second level only when the first has none. *)
Definition candidate_at_1 (root d : node) : Prop :=
  d ∈ entries root ∧ versioned_dir d.

Definition candidate_at_2 (root d : node) : Prop :=
  ∃ sub, sub ∈ entries root ∧ is_dir sub = true ∧
         d ∈ entries sub ∧ versioned_dir d.

Definition candidate (root d : node) : Prop :=
  candidate_at_1 root d ∨
  ((∀ d', ¬ candidate_at_1 root d') ∧ candidate_at_2 root d).







(** [front_matter_at text ws block]: the text opens with [---], white space
    [ws] and an LF; then comes [block], which ends with an LF, and [---]. *)
Definition front_matter_at (text ws block : str) : Prop :=
  ∃ b rest,
    Forall (λ c, is_space c = true) ws ∧
    block = b ++ [LF] ∧
    text = lit "---" ++ ws ++ LF :: block ++ lit "---" ++ rest.

(** The block stops at the first LF of [s] that [---] follows. *)
Definition first_closing (s block : str) : Prop :=
  ∀ k, S k < length block → starts_with (LF :: lit "---") (drop k s) = false.

(** [line] holds the key [k] and the value [v]: the text before its first
    colon, trimmed, and the text after it, trimmed and without the quote
    characters around it. *)
Definition field_of_line (line k v : str) : Prop :=
  ∃ kraw vraw,
    line = kraw ++ COLON :: vraw ∧ (COLON ∉ kraw) ∧
    k = strip kraw ∧ v = strip_by is_quote (strip vraw).

(** The last line of [lines] with the key [k] gives it the value [v]. *)
Definition last_field (lines : list str) (k v : str) : Prop :=
  ∃ i line,
    lines !! i = Some line ∧ field_of_line line k v ∧
    ∀ j line' v', i < j → lines !! j = Some line' → ¬ field_of_line line' k v'.

(** The sentence of the specification on the delimiters, word for word: the
    first line of the text is [---] and nothing else, and so is a later
    line. *)
Definition delimited_as_stated (text : str) : Prop :=
  ∃ inner rest, splitlines text = lit "---" :: inner ++ lit "---" :: rest.

(** The pattern of a module page, [Az.] and a word of letters; the [$] of
    the pattern lets one LF follow the word. *)
Definition module_index_name (fname : str) : Prop :=
  ∃ word,
    word ≠ [] ∧ Forall (λ c, is_alpha c = true) word ∧
    (fname = lit "Az." ++ word ∨ fname = lit "Az." ++ word ++ [LF]).

(** The pattern of a command name: [verb], a capital and at least one small
    letter, and then [-Az]. *)
Definition cmdlet_name (name verb : str) : Prop :=
  ∃ u word rest,
    is_upper u = true ∧ word ≠ [] ∧ Forall (λ c, is_lower c = true) word ∧
    verb = u :: word ∧ name = verb ++ lit "-Az" ++ rest.

(** The name of a document: its [title] field when the field is present and
    not empty, its base name otherwise. *)
Definition resolved_name (front : gmap str str) (fname : str) : str :=
  match front !! lit "title" with
  | Some t => if decide (t = []) then fname else t
  | None => fname
  end.

(** The module of a document: its [Module Name] field when the field is
    present and not empty; otherwise the name of the directory of the file,
    when that name starts with [Az.]. *)
Definition resolved_module (front : gmap str str) (parent : str) : option str :=
  match front !! lit "Module Name" with
  | Some ((_ :: _) as m) => Some m
  | _ => if decide (lit "Az." `prefix_of` parent) then Some parent else None
  end.

(** The name as the specification words it: the [title] field when it is
    present, the base name otherwise. *)
Definition name_as_stated (front : gmap str str) (fname : str) : str :=
  default fname (front !! lit "title").

(** The module directories of the version directory, in the order in which
    [main] visits them. *)
Definition module_dirs (azps_dir : node) : list node :=
  filter (λ d, is_dir d = true ∧ starts_with (lit "Az.") (node_name d) = true)
    (sorted (entries azps_dir)).

(** The classifier on an entry that is a file. *)
Definition parse_file (parent : str) (f : node) : option CommandDoc :=
  match f with
  | File file_name text => parse_cmdlet_text parent file_name text
  | Dir _ _ => None
  end.

(** The documents of a module directory that the classifier accepts, in the
    order in which they are read. *)
Definition accepted_in (mod_dir : node) : list CommandDoc :=
  omap (parse_file (node_name mod_dir)) (sorted (glob_md mod_dir)).

(** All accepted documents in processing order, each with the name of its
    module directory. *)
Definition accepted (azps_dir : node) : list (str * CommandDoc) :=
  mod_dir ← module_dirs azps_dir;
  (λ doc, (node_name mod_dir, doc)) <$> accepted_in mod_dir.

(** The manifest entry of an accepted document. *)
Definition entry_of (acc : str * CommandDoc) : ManifestEntry :=
  {| entry_n := name acc.2;
     entry_v := verb_of (name acc.2);
     entry_m := acc.1;
     entry_c := get_category acc.1;
     entry_e := match examples acc.2 with [] => false | _ :: _ => true end |}.

Definition cmdlet_data_of (doc : CommandDoc) : CmdletData :=
  {| cmdlet_syntax := syntax doc; cmdlet_examples := examples doc |}.

(** A version [d.d.d] of digits, and its occurrence after [azps-] in a
    name. *)
Definition dotted_version (v : str) : Prop :=
  ∃ d1 d2 d3,
    d1 ≠ [] ∧ d2 ≠ [] ∧ d3 ≠ [] ∧
    Forall (λ c, is_digit c = true) (d1 ++ d2 ++ d3) ∧
    v = d1 ++ lit "." ++ d2 ++ lit "." ++ d3.

Definition version_in (dir_name v : str) : Prop :=
  dotted_version v ∧ ∃ pre post, dir_name = pre ++ lit "azps-" ++ v ++ post.

(** A document below the version directory whose front matter gives the
    module [mn] the version [mv]. *)
Definition declares_version (azps_dir : node) (mn mv : str) : Prop :=
  ∃ file_name text,
    File file_name text ∈ rglob_md azps_dir ∧
    parse_front_matter text !! lit "Module Name" = Some mn ∧
    parse_front_matter text !! lit "Module Version" = Some mv.

(** A run of [main] that resolved the version directory [azps_dir]. *)
Definition resolved_run (argv : list str) (resolve : str → option node)
    (azps_dir : node) : Prop :=
  ∃ docs_root root,
    argv !! 1 = Some docs_root ∧ resolve docs_root = Some root ∧
    find_latest_azps_dir root = inr azps_dir.

(** ** Example trees *)

Definition ex_doc (front synopsis : list string) : str :=
  text_of (["---"] ++ front ++ ["---"] ++ synopsis ++
           ["## SYNTAX"; "```"; "Get-AzFoo [-Name] <String>"; "```";
            "## EXAMPLES"; "### Example 1"; "```powershell"; "# comment";
            "Get-AzFoo -Name x"; "```"]).

Definition ex_azps : node :=
  Dir (lit "azps-1.10.0")
    [ Dir (lit "Az.Foo")
        [ File (lit "Az.Foo.md")
            (text_of ["---"; "Module Name: Az.Foo"; "Module Version: 1.2"; "---"]);
          File (lit "b.md") (ex_doc ["title: Get-AzFoo"] []);
          File (lit "a.md")
            (ex_doc ["title: Get-AzFoo"]
               ["## SYNOPSIS"; "Gets a [foo](http://x)."; ""]);
          File (lit "Get-AzBar.md")
            (ex_doc [] ["## SYNOPSIS"; "Gets a *bar*."; ""]) ];
      Dir (lit "Az.Empty") [ File (lit "readme.md") [] ];
      File (lit "notes.md") [] ].

Definition ex_root : node :=
  Dir (lit "docs") [ Dir (lit "azps-1.2.3") []; ex_azps ].

Definition ex_argv : list str := [lit "parse_docs.py"; lit "docs"].

Definition ex_resolve (path : str) : option node :=
  if bool_decide (path = lit "docs") then Some ex_root else None.

Definition ex_trace : list event := (main ex_argv ex_resolve).2.

(** ** Folds that the loops compute *)

(** The description that a document records, if any, and the data that it
    puts in the mapping of its module, with their key. *)
Definition desc_field (doc : CommandDoc) : option (str * str) :=
  match description doc with
  | [] => None
  | _ :: _ => Some (name doc, description doc)
  end.

Definition cmd_field (doc : CommandDoc) : option (str * CmdletData) :=
  Some (name doc, cmdlet_data_of doc).

Definition insert_field {A V} (f : A → option (str * V))
    (m : gmap str V) (x : A) : gmap str V :=
  match f x with
  | Some (k, v) => <[k := v]> m
  | None => m
  end.

(** The mapping of a module directory, and the bundle that it yields when
    the mapping is not empty. *)
Definition cmdlets_of (mod_dir : node) : gmap str CmdletData :=
  foldl (insert_field cmd_field) ∅ (accepted_in mod_dir).

Definition bundle_field (module_version_map : gmap str str) (mod_dir : node)
  : option (str * ModuleBundle) :=
  if bool_decide (cmdlets_of mod_dir = ∅) then None
  else Some (node_name mod_dir,
             {| bundle_module := node_name mod_dir;
                bundle_version :=
                  default (lit "0.0.0") (module_version_map !! node_name mod_dir);
                bundle_cmdlets := cmdlets_of mod_dir |}).

(** The accepted documents of a list of entries of the version
    directory. *)
Definition accepted_of (dirs : list node) : list (str * CommandDoc) :=
  mod_dir ← filter (λ d, is_dir d = true ∧
                         starts_with (lit "Az.") (node_name d) = true) dirs;
  (λ doc, (node_name mod_dir, doc)) <$> accepted_in mod_dir.

(** ** Vocabulary of the statements on a run *)

(** [desc] is the description of the last document named [cname] among
    those of [accs] whose description is not empty. *)
Definition last_description (accs : list (str * CommandDoc)) (cname desc : str)
  : Prop :=
  ∃ i a,
    accs !! i = Some a ∧ name a.2 = cname ∧ description a.2 = desc ∧ desc ≠ [] ∧
    ∀ j a', i < j → accs !! j = Some a' → name a'.2 = cname → description a'.2 = [].

(** [data] is the data of the last document named [cname] in [docs]. *)
Definition last_cmdlet (docs : list CommandDoc) (cname : str) (data : CmdletData)
  : Prop :=
  ∃ i doc,
    docs !! i = Some doc ∧ name doc = cname ∧ data = cmdlet_data_of doc ∧
    ∀ j doc', i < j → docs !! j = Some doc' → name doc' ≠ cname.

(** The version of the manifest comes from the name of the version
    directory, or is the fallback when the name holds no version. *)
Definition manifest_version (azps_dir : node) (version : str) : Prop :=
  version_in (node_name azps_dir) version ∨
  (version = lit "0.0.0" ∧ ∀ v, ¬ version_in (node_name azps_dir) v).

(** The version of a module comes from the front matter of a document that
    names the module, or is the fallback when there is no such document. *)
Definition module_version (azps_dir : node) (module_name version : str) : Prop :=
  declares_version azps_dir module_name version ∨
  (version = lit "0.0.0" ∧ ∀ mv, ¬ declares_version azps_dir module_name mv).

(** A second tree: the same command name in two modules, the later
    document without a synopsis. *)
Definition ex_azps_two : node :=
  Dir (lit "azps-2.0.0")
    [ Dir (lit "Az.Beta") [ File (lit "Get-AzThing.md") (ex_doc [] []) ];
      Dir (lit "Az.Alpha")
        [ File (lit "Get-AzThing.md")
            (ex_doc [] ["## SYNOPSIS"; "Gets the thing."; ""]) ] ].

Definition ex_resolve_two (path : str) : option node :=
  if bool_decide (path = lit "docs") then Some (Dir (lit "docs") [ex_azps_two])
  else None.

Definition ex_trace_two : list event := (main ex_argv ex_resolve_two).2.

(** ** Vocabulary of the further properties *)

(** The list [candidates] of [find_latest_azps_dir], in its order: the
    children in the order of the listing, or the grandchildren, directory by
    directory. *)
Definition candidate_list (cs : list node) : list node :=
  match filter (λ d, is_azps d = true) cs with
  | [] => deeper_candidates cs
  | (_ :: _) as candidates => candidates
  end.

(** A file whose front matter has both fields and names the module [mn]. *)
Definition declares (f : node) (mn mv : str) : Prop :=
  ∃ file_name text,
    f = File file_name text ∧
    parse_front_matter text !! lit "Module Name" = Some mn ∧
    parse_front_matter text !! lit "Module Version" = Some mv.



(** Two documents that give the same module two versions. *)
Definition ex_version_files : list node :=
  [ File (lit "a.md")
      (text_of ["---"; "Module Name: Az.Foo"; "Module Version: 1.0"; "---"]);
    File (lit "b.md")
      (text_of ["---"; "Module Name: Az.Foo"; "Module Version: 2.0"; "---"]) ].

(** * Properties *)

Arguments lit : simpl never.
Arguments FENCE : simpl never.

(** ** Strings *)

Lemma starts_with_spec (p s : str) :
  starts_with p s = true ↔ ∃ r, s = p ++ r.
Proof.
  revert s. induction p as [|a p IH]; intros s; simpl.
  - split; [eauto | done].
  - destruct s as [|b s].
    + split; [done | intros [r Hr]; discriminate].
    + rewrite andb_true_iff, bool_decide_eq_true, IH. split.
      * intros [-> [r ->]]. eauto.
      * intros [r Hr]. injection Hr as -> ->. eauto.
Qed.

Lemma starts_with_app (p r : str) : starts_with p (p ++ r) = true.
Proof. apply starts_with_spec. eauto. Qed.

Lemma starts_with_drop (p s : str) :
  starts_with p s = true → s = p ++ drop (length p) s.
Proof.
  intros [r ->]%starts_with_spec. by rewrite drop_app_length.
Qed.

Lemma starts_with_cons (a c : ascii) (p s : str) :
  starts_with (a :: p) (c :: s) = bool_decide (c = a) && starts_with p s.
Proof.
  simpl. f_equal. apply bool_decide_ext. split; congruence.
Qed.


Lemma lower_app (a b : str) : lower (a ++ b) = lower a ++ lower b.
Proof. unfold lower. apply map_app. Qed.

Lemma lower_take (n : nat) (s : str) : lower (take n s) = take n (lower s).
Proof. unfold lower. by rewrite fmap_take. Qed.

Lemma starts_with_take (p s : str) :
  starts_with p (take (length p) s) = starts_with p s.
Proof.
  revert s. induction p as [|a p IH]; intros s; [reflexivity|].
  destruct s as [|b s]; [reflexivity|]. cbn [take length].
  rewrite !starts_with_cons. by rewrite IH.
Qed.

Lemma starts_with_ci_lower (p s : str) :
  starts_with_ci p s = starts_with (lower p) (lower s).
Proof.
  unfold starts_with_ci. rewrite lower_take.
  replace (length p) with (length (lower p)) by (unfold lower; apply length_map).
  apply starts_with_take.
Qed.

Lemma contains_spec (needle hay : str) :
  contains needle hay = true ↔ ∃ pre post, hay = pre ++ needle ++ post.
Proof.
  induction hay as [|c hay IH]; simpl.
  - rewrite orb_false_r, starts_with_spec. split.
    + intros [r Hr]. exists [], r. done.
    + intros (pre & post & H). symmetry in H.
      apply app_eq_nil in H as [-> H]. exists post. done.
  - rewrite orb_true_iff, starts_with_spec, IH. split.
    + intros [[r Hr] | (pre & post & ->)].
      * exists [], r. done.
      * exists (c :: pre), post. done.
    + intros (pre & post & H). destruct pre as [|c' pre].
      * left. exists post. done.
      * right. injection H as -> ->. eauto.
Qed.

(** ** The category mapper *)

Lemma exact_pass_spec (suffix : str) (rules : list (str * str)) :
  match exact_pass suffix rules with
  | Some cat => ∃ i rule, first_rule (exact_rule suffix) rules i rule ∧ rule.2 = cat
  | None => ∀ r, r ∈ rules → ¬ exact_rule suffix r
  end.
Proof.
  induction rules as [|[key cat] rest IH]; simpl.
  - intros r Hr. by apply not_elem_of_nil in Hr.
  - case_bool_decide as Hk.
    + exists 0, (key, cat). repeat split; [done | lia].
    + destruct (exact_pass suffix rest) as [c|].
      * destruct IH as (i & rule & (Hi & HP & Hmin) & Hc).
        exists (S i), rule. repeat split; try done.
        intros [|j] r Hj Hr; simpl in Hr.
        -- injection Hr as <-. done.
        -- apply (Hmin j r); [lia | done].
      * intros r [->|Hr]%elem_of_cons; [done | by apply IH].
Qed.

Lemma partial_pass_spec (suffix : str) (rules : list (str * str)) :
  match partial_pass suffix rules with
  | Some cat => ∃ i rule, first_rule (partial_rule suffix) rules i rule ∧ rule.2 = cat
  | None => ∀ r, r ∈ rules → ¬ partial_rule suffix r
  end.
Proof.
  induction rules as [|[key cat] rest IH]; simpl.
  - intros r Hr. by apply not_elem_of_nil in Hr.
  - destruct (contains (lower key) (lower suffix)) eqn:Hk.
    + exists 0, (key, cat). repeat split; [by apply contains_spec | lia].
    + assert (¬ partial_rule suffix (key, cat)) as Hn.
      { intros H%contains_spec. simpl in H. congruence. }
      destruct (partial_pass suffix rest) as [c|].
      * destruct IH as (i & rule & (Hi & HP & Hmin) & Hc).
        exists (S i), rule. repeat split; try done.
        intros [|j] r Hj Hr; simpl in Hr.
        -- injection Hr as <-. done.
        -- apply (Hmin j r); [lia | done].
      * intros r [->|Hr]%elem_of_cons; [done | by apply IH].
Qed.

(** C3. [get_category] strips the prefix [Az.] from the module name and
    answers in two passes over [CATEGORY_MAP]: the category of the first
    rule whose key is the suffix, case apart; when there is none, the
    category of the first rule, in the order of the list, whose key occurs
    in the suffix, case apart; when there is none either, [Other].  So of
    two rules that both match by inclusion the earlier one decides. *)
Theorem get_category_two_passes (module_name : str) :
  let suffix := removeprefix (lit "Az.") module_name in
  (∃ i rule, first_rule (exact_rule suffix) CATEGORY_MAP i rule ∧
             get_category module_name = rule.2)
  ∨ ((∀ r, r ∈ CATEGORY_MAP → ¬ exact_rule suffix r) ∧
     ∃ i rule, first_rule (partial_rule suffix) CATEGORY_MAP i rule ∧
               get_category module_name = rule.2)
  ∨ ((∀ r, r ∈ CATEGORY_MAP → ¬ exact_rule suffix r) ∧
     (∀ r, r ∈ CATEGORY_MAP → ¬ partial_rule suffix r) ∧
     get_category module_name = lit "Other").
Proof.
  intros suffix. unfold get_category, get_category_with. fold suffix.
  pose proof (exact_pass_spec suffix CATEGORY_MAP) as He.
  pose proof (partial_pass_spec suffix CATEGORY_MAP) as Hp.
  destruct (exact_pass suffix CATEGORY_MAP) as [c|].
  - left. destruct He as (i & rule & Hf & <-). eauto.
  - right. destruct (partial_pass suffix CATEGORY_MAP) as [c|].
    + left. split; [done|]. destruct Hp as (i & rule & Hf & <-). eauto.
    + right. eauto.
Qed.

(** The keys [Network] and [Security] both occur in this suffix; the
    earlier rule decides.  An exact match comes before any inclusion. *)
Example get_category_order :
  get_category (lit "Az.NetworkSecurityPerimeter") = lit "Networking" ∧
  get_category (lit "Az.ResourceMover") = lit "Resources" ∧
  get_category (lit "Az.aks") = lit "Containers" ∧
  get_category (lit "Az.Quota") = lit "Other".
Proof. repeat split; vm_compute; reflexivity. Qed.

(** ** The version resolver *)

Lemma tuple_lt_spec (a b : list N) : tuple_lt a b = true ↔ lex_lt a b.
Proof.
  revert b. induction a as [|x a IH]; intros [|y b]; simpl.
  - split; [done | inversion 1].
  - split; [constructor | done].
  - split; [done | inversion 1].
  - destruct (N.ltb_spec x y) as [Hxy|Hxy].
    + split; [by constructor | done].
    + destruct (N.ltb_spec y x) as [Hyx|Hyx].
      * split; [done|]. inversion 1; subst; lia.
      * assert (x = y) as -> by lia. rewrite IH. split.
        -- by constructor.
        -- inversion 1; subst; [lia | done].
Qed.

Lemma lex_lt_irrefl (a : list N) : ¬ lex_lt a a.
Proof. induction a; inversion 1; subst; [lia | auto]. Qed.

Lemma lex_lt_trans (a b c : list N) : lex_lt a b → lex_lt b c → lex_lt a c.
Proof.
  intros Hab. revert c. induction Hab; intros c Hbc; inversion Hbc; subst;
    try (constructor; done).
  - constructor. lia.
  - constructor 3. auto.
Qed.

Lemma lex_total (a b : list N) : lex_lt a b ∨ a = b ∨ lex_lt b a.
Proof.
  revert b. induction a as [|x a IH]; intros [|y b].
  - auto.
  - left. constructor.
  - right. right. constructor.
  - destruct (N.lt_total x y) as [H|[->|H]].
    + left. by constructor.
    + destruct (IH b) as [H|[->|H]].
      * left. by constructor 3.
      * auto.
      * right. right. by constructor 3.
    + right. right. by constructor.
Qed.

Lemma lex_le_trans (a b c : list N) : lex_le a b → lex_le b c → lex_le a c.
Proof.
  intros [->|Hab] [->|Hbc]; unfold lex_le; eauto using lex_lt_trans.
Qed.

Lemma not_tuple_lt_le (a b : list N) : tuple_lt a b = false → lex_le b a.
Proof.
  intros H. destruct (lex_total a b) as [Hl|[->|Hl]].
  - apply tuple_lt_spec in Hl. congruence.
  - by left.
  - by right.
Qed.

(** [max_by] returns one of the items, and no item has a greater key. *)
Lemma max_by_spec {A} (key : A → list N) (best : A) (rest : list A) :
  max_by key best rest ∈ best :: rest ∧
  ∀ x, x ∈ best :: rest → lex_le (key x) (key (max_by key best rest)).
Proof.
  revert best. induction rest as [|y rest IH]; intros best; simpl.
  - split; [apply list_elem_of_singleton; done|].
    intros x ->%list_elem_of_singleton. by left.
  - destruct (IH (if tuple_lt (key best) (key y) then y else best)) as [Hin Hmax].
    split.
    + apply elem_of_cons in Hin as [Hin|Hin]; [|by do 2 right].
      rewrite Hin. destruct (tuple_lt (key best) (key y));
        [right; by left | by left].
    + intros x Hx.
      assert (lex_le (key x) (key (if tuple_lt (key best) (key y) then y else best))
              ∨ x ∈ rest) as [Hle|Hr].
      { apply elem_of_cons in Hx as [->|Hx].
        - left. destruct (tuple_lt (key best) (key y)) eqn:E.
          + right. by apply tuple_lt_spec.
          + by left.
        - apply elem_of_cons in Hx as [->|Hx]; [|by right].
          left. destruct (tuple_lt (key best) (key y)) eqn:E.
          + by left.
          + by apply not_tuple_lt_le. }
      * eapply lex_le_trans; [exact Hle|]. apply Hmax. by left.
      * apply Hmax. by right.
Qed.

Lemma is_azps_spec (d : node) : is_azps d = true ↔ versioned_dir d.
Proof.
  unfold is_azps, versioned_dir.
  rewrite andb_true_iff, starts_with_spec. done.
Qed.

Lemma elem_of_deeper_candidates (subs : list node) (d : node) :
  d ∈ deeper_candidates subs ↔
  ∃ sub, sub ∈ subs ∧ is_dir sub = true ∧ d ∈ entries sub ∧ versioned_dir d.
Proof.
  unfold deeper_candidates.
  assert (∀ acc, d ∈ foldl (λ candidates sub,
             if is_dir sub
             then candidates ++ filter (λ d, is_azps d = true) (entries sub)
             else candidates) acc subs ↔
           d ∈ acc ∨ ∃ sub, sub ∈ subs ∧ is_dir sub = true ∧
                            d ∈ entries sub ∧ versioned_dir d) as H.
  { induction subs as [|s subs IH]; intros acc; simpl.
    - split; [auto|]. intros [H|(sub & H & _)]; [done | by apply not_elem_of_nil in H].
    - rewrite IH. destruct (is_dir s) eqn:Hs.
      + rewrite elem_of_app, list_elem_of_filter, is_azps_spec. split.
        * intros [[H|[H1 H2]]|(sub & H1 & H2)]; [auto| |].
          -- right. exists s. split; [by left|]. split; [done|]. split; done.
          -- right. exists sub. split; [by right|done].
        * intros [H|(sub & [->|H1]%elem_of_cons & H2 & H3 & H4)]; [auto|auto|].
          right. exists sub. auto.
      + split.
        * intros [H|(sub & H1 & H2)]; [auto|]. right. exists sub.
          split; [by right | done].
        * intros [H|(sub & [->|H1]%elem_of_cons & H2 & H3 & H4)]; [auto|congruence|].
          right. exists sub. auto. }
  rewrite H. rewrite elem_of_nil. tauto.
Qed.

Lemma lex_le_not_lt (a b : list N) : lex_le a b → tuple_lt b a = false.
Proof.
  intros Hle. destruct (tuple_lt b a) eqn:E; [|done].
  apply tuple_lt_spec in E. destruct Hle as [->|Hlt].
  - by apply lex_lt_irrefl in E.
  - destruct (lex_lt_irrefl a). by eapply lex_lt_trans.
Qed.

(** The list [candidates] of the source holds the candidates of the
    statement. *)
Lemma find_latest_candidates (root_name : str) (cs : list node) :
  ∃ cands,
    (∀ d, d ∈ cands ↔ candidate (Dir root_name cs) d) ∧
    find_latest_azps_dir (Dir root_name cs) =
      match cands with
      | [] => inl FileNotFoundError
      | c :: rest => inr (max_by ver_key c rest)
      end.
Proof.
  unfold find_latest_azps_dir.
  assert (∀ d, d ∈ filter (λ d, is_azps d = true) cs ↔
               candidate_at_1 (Dir root_name cs) d) as H1.
  { intros d. rewrite list_elem_of_filter, is_azps_spec.
    unfold candidate_at_1. simpl. tauto. }
  destruct (filter (λ d, is_azps d = true) cs) as [|c rest] eqn:E.
  - exists (deeper_candidates cs). split; [|done].
    intros d. rewrite elem_of_deeper_candidates. unfold candidate. split.
    + intros H. right. split; [|exact H].
      intros d' Hd'. apply H1 in Hd'. by apply not_elem_of_nil in Hd'.
    + intros [H|[_ H]]; [|exact H].
      apply H1 in H. by apply not_elem_of_nil in H.
  - exists (c :: rest). split; [|done].
    intros d. rewrite H1. unfold candidate. split; [auto|].
    intros [H|[Hn _]]; [done|]. destruct (Hn c). apply H1. by left.
Qed.

(** C1. Applied to a root directory, [find_latest_azps_dir] takes as
    candidates the child directories whose name starts with [azps-], and
    only when there is none the grandchildren of the same kind under the
    child directories; it raises [FileNotFoundError] exactly when there is no
    candidate at either level, and raises nothing else; otherwise it returns
    a candidate whose tuple of integers, read from its name, is greatest in
    the lexicographic order.  Of [azps-1.2.3], [azps-1.10.0] and
    [azps-1.9.9], listed in any order, it returns [azps-1.10.0]. *)
Theorem find_latest_azps_dir_greatest (root_name : str) (cs : list node) :
  let root := Dir root_name cs in
  (find_latest_azps_dir root = inl FileNotFoundError ↔
     ∀ d, ¬ candidate_at_1 root d ∧ ¬ candidate_at_2 root d)
  ∧ (∀ e, find_latest_azps_dir root = inl e → e = FileNotFoundError)
  ∧ (∀ d, find_latest_azps_dir root = inr d →
       candidate root d ∧
       ∀ c, candidate root c → lex_le (ver_key c) (ver_key d))
  ∧ (∀ ca cb cc l,
       l ≡ₚ [Dir (lit "azps-1.2.3") ca; Dir (lit "azps-1.10.0") cb;
             Dir (lit "azps-1.9.9") cc] →
       find_latest_azps_dir (Dir root_name l) = inr (Dir (lit "azps-1.10.0") cb)).
Proof.
  assert (∀ cs, let root := Dir root_name cs in
    (find_latest_azps_dir root = inl FileNotFoundError ↔
       ∀ d, ¬ candidate_at_1 root d ∧ ¬ candidate_at_2 root d)
    ∧ (∀ e, find_latest_azps_dir root = inl e → e = FileNotFoundError)
    ∧ (∀ d, find_latest_azps_dir root = inr d →
         candidate root d ∧
         ∀ c, candidate root c → lex_le (ver_key c) (ver_key d))) as General.
  { clear cs. intros cs root.
    destruct (find_latest_candidates root_name cs) as (cands & Hc & Hf).
    fold root in Hc, Hf. rewrite Hf. destruct cands as [|c rest].
    - split; [|split].
      + split; [|done]. intros _ d. split.
        * intros H. assert (candidate root d) as H'%Hc by (by left).
          by apply not_elem_of_nil in H'.
        * intros H. assert (candidate root d) as H'%Hc; [|by apply not_elem_of_nil in H'].
          right. split; [|done]. intros d' Hd'.
          assert (candidate root d') as H'%Hc by (by left).
          by apply not_elem_of_nil in H'.
      + congruence.
      + discriminate.
    - split; [|split].
      + split; [discriminate|]. intros H. exfalso.
        assert (candidate root c) as [H1|[_ H2]] by (apply Hc; by left).
        * by destruct (H c).
        * by destruct (H c).
      + discriminate.
      + intros d [= <-]. split.
        * apply Hc. apply max_by_spec.
        * intros c' Hc'. apply max_by_spec. by apply Hc. }
  intros root. destruct (General cs) as (G1 & G2 & G3).
  split; [done|]. split; [done|]. split; [done|].
  intros ca cb cc l Hl.
  destruct (General l) as (L1 & L2 & L3).
  set (a := Dir (lit "azps-1.2.3") ca) in *.
  set (b := Dir (lit "azps-1.10.0") cb) in *.
  set (c := Dir (lit "azps-1.9.9") cc) in *.
  assert (∀ x, x ∈ [a; b; c] → candidate_at_1 (Dir root_name l) x) as Hcand.
  { intros x Hx. split.
    - simpl. by rewrite Hl.
    - apply is_azps_spec.
      repeat (apply elem_of_cons in Hx as [->|Hx]; [by vm_compute|]).
      by apply not_elem_of_nil in Hx. }
  destruct (find_latest_azps_dir (Dir root_name l)) as [e|d] eqn:E.
  - rewrite (L2 e eq_refl) in *.
    destruct (proj1 L1 eq_refl b) as [Hn _]. destruct Hn. apply Hcand.
    right. by left.
  - destruct (L3 d eq_refl) as [Hd Hmax].
    assert (d ∈ [a; b; c]) as Hin.
    { destruct Hd as [[Hd _]|[Hn _]].
      - simpl in Hd. by rewrite Hl in Hd.
      - destruct (Hn b). apply Hcand. right. by left. }
    assert (lex_le (ver_key b) (ver_key d)) as Hb%lex_le_not_lt.
    { apply Hmax. left. apply Hcand. right. by left. }
    repeat (apply elem_of_cons in Hin as [->|Hin]; [try done; by vm_compute in Hb|]).
    by apply not_elem_of_nil in Hin.
Qed.

(** ** The code-block extractor *)



























Lemma clean_loop_spec (blocks cleaned : list str) :
  clean_loop blocks cleaned =
  cleaned ++ filter (λ code, code ≠ []) (clean_block <$> blocks).
Proof.
  revert cleaned. induction blocks as [|b blocks IH]; intros cleaned.
  - simpl. by rewrite app_nil_r.
  - cbn [clean_loop]. rewrite fmap_cons.
    destruct (clean_block b) as [|c code] eqn:E.
    + rewrite IH. rewrite filter_cons_False; [done | intros H; by apply H].
    + rewrite IH, filter_cons_True by done. by rewrite <- app_assoc.
Qed.

Lemma strip_nil : strip [] = [].
Proof. reflexivity. Qed.



Example extract_code_blocks_example :
  extract_code_blocks
    (text_of ["```powershell"; "# list the items"; "Get-AzFoo -Name x"; "```";
              "text"; "```"; "# only a comment"; "```";
              "```PS1"; "Get-AzBar"; "```"; "```"; "Get-AzBaz"; "```"]) 3
  = [lit "Get-AzFoo -Name x"; lit "Get-AzBar"].
Proof. vm_compute. reflexivity. Qed.

(** ** The front-matter parser *)

Lemma split_first_spec (sep : ascii) (s a b : str) :
  split_first sep s = Some (a, b) ↔ s = a ++ sep :: b ∧ sep ∉ a.
Proof.
  revert a b. induction s as [|c s IH]; intros a b; simpl.
  - split; [done|]. intros [H _]. by destruct a.
  - case_bool_decide as Hc.
    + subst c. split.
      * intros [= <- <-]. split; [done | apply not_elem_of_nil].
      * intros [H Hn]. destruct a as [|c a]; [by injection H as ->|].
        injection H as -> _. destruct Hn. by left.
    + destruct (split_first sep s) as [[a' b']|] eqn:E.
      * split.
        -- intros [= <- <-]. destruct (proj1 (IH a' b') eq_refl) as [-> Hn].
           split; [done|]. intros [?|?]%elem_of_cons; done.
        -- intros [H Hn]. destruct a as [|c' a]; [by injection H as ->|].
           injection H as -> H.
           assert (Some (a', b') = Some (a, b)) as [= -> ->]; [|done].
           apply IH. split; [done|]. intros ?. apply Hn. by right.
      * split; [done|]. intros [H Hn]. destruct a as [|c' a]; [by injection H as ->|].
        injection H as -> H. assert (sep ∉ a) as Hn' by (intros ?; apply Hn; by right).
        by pose proof (proj2 (IH a b) (conj H Hn')).
Qed.

Lemma split_first_None (sep : ascii) (s : str) :
  split_first sep s = None ↔ sep ∉ s.
Proof.
  induction s as [|c s IH]; simpl.
  - split; [intros _; apply not_elem_of_nil | done].
  - case_bool_decide as Hc.
    + subst. split; [done|]. intros H. destruct H. by left.
    + destruct (split_first sep s) as [[a b]|].
      * split; [done|]. intros H. exfalso.
        assert (sep ∉ s) as H'%IH by (intros ?; apply H; by right). done.
      * split; [|done]. intros _ [?|?]%elem_of_cons; [done|]. by apply IH.
Qed.

(** The field that [fm_line] reads from a line. *)
Lemma fm_line_field (result : gmap str str) (line : str) :
  (∃ k v, field_of_line line k v ∧ fm_line result line = <[k := v]> result ∧
          ∀ k' v', field_of_line line k' v' → k' = k ∧ v' = v)
  ∨ ((∀ k v, ¬ field_of_line line k v) ∧ fm_line result line = result).
Proof.
  unfold fm_line. destruct (split_first COLON line) as [[a b]|] eqn:E.
  - left. apply split_first_spec in E as E'. destruct E' as [Hl Hn].
    exists (strip a), (strip_by is_quote (strip b)). split; [|split; [done|]].
    + by exists a, b.
    + intros k' v' (a' & b' & Hl' & Hn' & -> & ->).
      assert (split_first COLON line = Some (a', b')) as E'
        by (by apply split_first_spec).
      rewrite E in E'. by injection E' as <- <-.
  - right. split; [|done]. intros k v (a' & b' & Hl' & Hn' & _).
    assert (split_first COLON line = Some (a', b')) as E'
      by (by apply split_first_spec).
    congruence.
Qed.

Lemma foldl_fm_line_lookup (lines : list str) (k v : str) :
  foldl fm_line ∅ lines !! k = Some v ↔ last_field lines k v.
Proof.
  induction lines as [|line lines IH] using rev_ind.
  - simpl. rewrite lookup_empty. split; [done|].
    intros (i & l & Hi & _). by rewrite lookup_nil in Hi.
  - rewrite foldl_app. cbn [foldl].
    destruct (fm_line_field (foldl fm_line ∅ lines) line)
      as [(k0 & v0 & Hf & -> & Huniq)|[Hnone ->]].
    + destruct (decide (k0 = k)) as [->|Hne].
      * rewrite lookup_insert_eq. split.
        -- intros [= <-]. exists (length lines), line. split; [|split; [done|]].
           ++ by rewrite lookup_app_r, Nat.sub_diag by lia.
           ++ intros j l' v' Hj Hl'. apply lookup_lt_Some in Hl'.
              rewrite length_app in Hl'. simpl in Hl'. lia.
        -- intros (i & l & Hi & Hfi & Hlast).
           destruct (decide (i = length lines)) as [->|Hi'].
           ++ rewrite lookup_app_r, Nat.sub_diag in Hi by lia.
              injection Hi as <-. f_equal. symmetry. by apply (Huniq k v).
           ++ exfalso. apply lookup_lt_Some in Hi as Hlt.
              rewrite length_app in Hlt. simpl in Hlt.
              apply (Hlast (length lines) line v0); [lia| |done].
              by rewrite lookup_app_r, Nat.sub_diag by lia.
      * rewrite lookup_insert_ne by done. rewrite IH. split.
        -- intros (i & l & Hi & Hfi & Hlast). exists i, l.
           split; [|split; [done|]].
           ++ apply lookup_app_l_Some. done.
           ++ intros j l' v' Hj Hl' Hf'.
              destruct (decide (j = length lines)) as [->|Hj'].
              ** rewrite lookup_app_r, Nat.sub_diag in Hl' by lia.
                 injection Hl' as <-. destruct (Huniq k v' Hf'). congruence.
              ** apply (Hlast j l' v'); [done| |done].
                 apply lookup_lt_Some in Hl' as Hlt.
                 rewrite length_app in Hlt. simpl in Hlt.
                 rewrite lookup_app_l in Hl' by lia. done.
        -- intros (i & l & Hi & Hfi & Hlast).
           destruct (decide (i = length lines)) as [->|Hi'].
           ++ rewrite lookup_app_r, Nat.sub_diag in Hi by lia.
              injection Hi as <-. destruct (Huniq k v Hfi). congruence.
           ++ apply lookup_lt_Some in Hi as Hlt.
              rewrite length_app in Hlt. simpl in Hlt.
              rewrite lookup_app_l in Hi by lia.
              exists i, l. split; [done|]. split; [done|].
              intros j l' v' Hj Hl'. apply (Hlast j l' v'); [done|].
              by apply lookup_app_l_Some.
    + rewrite IH. split.
      * intros (i & l & Hi & Hfi & Hlast). exists i, l.
        split; [|split; [done|]].
        -- by apply lookup_app_l_Some.
        -- intros j l' v' Hj Hl' Hf'.
           destruct (decide (j = length lines)) as [->|Hj'].
           ++ rewrite lookup_app_r, Nat.sub_diag in Hl' by lia.
              injection Hl' as <-. by apply (Hnone k v').
           ++ apply (Hlast j l' v'); [done| |done].
              apply lookup_lt_Some in Hl' as Hlt.
              rewrite length_app in Hlt. simpl in Hlt.
              rewrite lookup_app_l in Hl' by lia. done.
      * intros (i & l & Hi & Hfi & Hlast).
        destruct (decide (i = length lines)) as [->|Hi'].
        -- rewrite lookup_app_r, Nat.sub_diag in Hi by lia.
           injection Hi as <-. by destruct (Hnone k v).
        -- apply lookup_lt_Some in Hi as Hlt.
           rewrite length_app in Hlt. simpl in Hlt.
           rewrite lookup_app_l in Hi by lia.
           exists i, l. split; [done|]. split; [done|].
           intros j l' v' Hj Hl'. apply (Hlast j l' v'); [done|].
           by apply lookup_app_l_Some.
Qed.

Lemma fm_body_sound (s g : str) :
  fm_body s = Some g →
  ∃ b rest, g = b ++ [LF] ∧ s = g ++ lit "---" ++ rest ∧ first_closing s g.
Proof.
  revert g. induction s as [|c s IH]; intros g; cbn [fm_body]; [discriminate|].
  destruct (bool_decide (c = LF) && starts_with (lit "---") s) eqn:E.
  - intros [= <-]. apply andb_true_iff in E as [->%bool_decide_eq_true E].
    apply starts_with_spec in E as [rest ->].
    exists [], rest. split; [done|]. split; [done|].
    intros k Hk. simpl in Hk. lia.
  - destruct (fm_body s) as [g'|]; [|discriminate]. intros [= <-].
    destruct (IH g' eq_refl) as (b & rest & -> & Hs & Hfirst).
    exists (c :: b), rest. split; [done|]. split.
    + rewrite Hs at 1. done.
    + intros [|k] Hk.
      * cbn [drop]. by rewrite starts_with_cons.
      * cbn [drop]. apply Hfirst. simpl in Hk. lia.
Qed.

Lemma fm_body_complete (b rest : str) :
  is_Some (fm_body (b ++ LF :: lit "---" ++ rest)).
Proof.
  induction b as [|c b IH]; cbn [app fm_body].
  - rewrite bool_decide_eq_true_2 by done. rewrite starts_with_app. by eexists.
  - destruct (bool_decide (c = LF) && starts_with _ _); [by eexists|].
    destruct IH as [g ->]. by eexists.
Qed.

Lemma fm_open_complete (ws s : str) :
  Forall (λ c, is_space c = true) ws →
  is_Some (fm_body s) → is_Some (fm_open (ws ++ LF :: s)).
Proof.
  intros Hws [g Hg]. induction Hws as [|c ws Hc _ IH]; cbn [app fm_open].
  - change (is_space LF) with true. cbv iota.
    destruct (fm_open s); [by eexists|].
    rewrite bool_decide_eq_true_2 by done. by eexists.
  - rewrite Hc. destruct IH as [g' ->]. by eexists.
Qed.

(** [fm_open] ends the white space at the last LF after which the body
    matches. *)
Lemma fm_open_sound (s g : str) :
  fm_open s = Some g →
  ∃ ws s',
    Forall (λ c, is_space c = true) ws ∧ s = ws ++ LF :: s' ∧
    fm_body s' = Some g ∧
    ∀ ws' s'', Forall (λ c, is_space c = true) ws' → s = ws' ++ LF :: s'' →
               is_Some (fm_body s'') → length ws' ≤ length ws.
Proof.
  revert g. induction s as [|c s IH]; intros g; cbn [fm_open]; [discriminate|].
  destruct (if is_space c then fm_open s else None) as [g'|] eqn:E.
  - intros [= <-]. destruct (is_space c) eqn:Hc; [|discriminate].
    destruct (IH g' E) as (ws & s' & Hws & -> & Hb & Hmax).
    exists (c :: ws), s'. split; [by constructor|]. split; [done|]. split; [done|].
    intros [|c' ws'] s'' Hws' Hs Hsome; [simpl; lia|].
    injection Hs as <- Hs. apply Forall_cons in Hws' as [_ Hws'].
    simpl. apply le_n_S. by apply (Hmax ws' s'').
  - case_bool_decide as Hc; [|discriminate]. subst c. intros Hb.
    exists [], s. split; [constructor|]. split; [done|]. split; [done|].
    intros [|c' ws'] s'' Hws' Hs Hsome; [done|]. exfalso.
    injection Hs as <- Hs. apply Forall_cons in Hws' as [Hc' Hws'].
    rewrite Hc' in E. subst s.
    destruct (fm_open_complete ws' s'' Hws' Hsome) as [? ?]. congruence.
Qed.

Lemma fm_match_sound (text block : str) :
  fm_match text = Some block →
  ∃ ws rest,
    front_matter_at text ws block ∧
    text = lit "---" ++ ws ++ LF :: block ++ lit "---" ++ rest ∧
    first_closing (block ++ lit "---" ++ rest) block ∧
    ∀ ws' block', front_matter_at text ws' block' → length ws' ≤ length ws.
Proof.
  unfold fm_match. destruct (starts_with (lit "---") text) eqn:E; [|discriminate].
  apply starts_with_drop in E. change (length (lit "---")) with 3 in E.
  intros (ws & s' & Hws & Hs & Hb & Hmax)%fm_open_sound.
  destruct (fm_body_sound s' block Hb) as (b & rest & Hblock & Hs' & Hfirst).
  exists ws, rest.
  assert (text = lit "---" ++ ws ++ LF :: block ++ lit "---" ++ rest) as Htext.
  { rewrite E at 1. by rewrite Hs, Hs'. }
  split; [by exists b, rest|]. split; [done|]. split; [by rewrite <- Hs'|].
  intros ws' block' (b' & rest' & Hws' & -> & Htext').
  apply (Hmax ws' ((b' ++ [LF]) ++ lit "---" ++ rest')); [done| |].
  - rewrite Htext'. reflexivity.
  - rewrite <- !app_assoc. apply fm_body_complete.
Qed.

Lemma fm_match_complete (text ws block : str) :
  front_matter_at text ws block → is_Some (fm_match text).
Proof.
  intros (b & rest & Hws & -> & ->). unfold fm_match.
  rewrite starts_with_app. rewrite drop_app_length' by done.
  apply fm_open_complete; [done|]. rewrite <- !app_assoc. apply fm_body_complete.
Qed.

(** C6, as the code has it. [parse_front_matter] recognises, at the very
    start of the text, [---] followed by white space and an LF, then a block
    of at least one character that ends with an LF, then [---]; what follows
    the closing [---] on its line is not looked at.  The white space is the
    longest for which such a block exists, and the block stops at the first
    LF in it that [---] follows: a [---] right after the opening belongs to
    the block and does not close it.
    Without such a block the result is the empty mapping.  In the block,
    each line with a colon gives a key, the text before the first colon
    trimmed, and a value, the text after it trimmed and without the
    surrounding quote characters; lines without a colon give nothing, and
    the last line with a key gives the key its value. *)
Theorem parse_front_matter_fields (text : str) :
  ((¬ ∃ ws block, front_matter_at text ws block) → parse_front_matter text = ∅)
  ∧ (∀ ws0 block0, front_matter_at text ws0 block0 →
       ∃ ws block rest,
         front_matter_at text ws block ∧
         text = lit "---" ++ ws ++ LF :: block ++ lit "---" ++ rest ∧
         (∀ ws' block', front_matter_at text ws' block' → length ws' ≤ length ws) ∧
         first_closing (block ++ lit "---" ++ rest) block ∧
         ∀ k v, parse_front_matter text !! k = Some v ↔
                last_field (splitlines block) k v).
Proof.
  unfold parse_front_matter. split.
  - intros Hno. destruct (fm_match text) as [block|] eqn:E; [|done].
    destruct Hno. apply fm_match_sound in E as (ws & rest & H & _). eauto.
  - intros ws0 block0 H0.
    destruct (fm_match_complete _ _ _ H0) as [block E]. rewrite E.
    apply fm_match_sound in E as (ws & rest & H1 & H2 & H3 & H4).
    exists ws, block, rest. repeat (split; [done|]).
    intros k v. apply foldl_fm_line_lookup.
Qed.

Example parse_front_matter_example :
  parse_front_matter
    (text_of ["---"; "title: 'Get-AzFoo'"; "Module Name: Az.Foo"; "no colon here";
              "title:  New-AzFoo: more "; "---"; "title: other"])
  = {[ lit "title" := lit "New-AzFoo: more"; lit "Module Name" := lit "Az.Foo" ]}
  ∧ parse_front_matter (text_of ["# Heading"; "---"; "title: x"; "---"]) = ∅.
Proof. split; vm_compute; reflexivity. Qed.

(** A line [---] right after the opening does not close the block: the
    block has at least one line, and this one goes on to the next [---]. *)
Example parse_front_matter_example_dashes :
  parse_front_matter (text_of ["---"; "---"; "k: v"; "---"; "rest"])
  = {[ lit "k" := lit "v" ]}.
Proof. vm_compute; reflexivity. Qed.

(** The closing line need not be [---] alone: this text has no line [---]
    after the first, so the delimited block of the specification is absent,
    and yet the result is not the empty mapping. *)
Lemma parse_front_matter_closing_line :
  let text := text_of ["---"; "title: Get-AzFoo"; "---more"] in
  ¬ delimited_as_stated text ∧
  parse_front_matter text = {[ lit "title" := lit "Get-AzFoo" ]} ∧
  parse_front_matter text ≠ ∅.
Proof.
  split; [|split].
  - intros (inner & rest & H). vm_compute in H.
    injection H as H. destruct inner as [|l inner]; [discriminate|].
    injection H as _ H. destruct inner as [|l' inner]; [discriminate|].
    injection H as _ H. by destruct inner.
  - vm_compute. reflexivity.
  - intros H. apply (f_equal (λ m : gmap str str, m !! lit "title")) in H.
    vm_compute in H. discriminate.
Qed.

(** A string that is not empty has a first line, so [splitlines()[0]] in
    [parse_cmdlet_doc], which is applied to a section that is not empty,
    raises no [IndexError]. *)
Lemma splitlines_go_cur (after_cr : bool) (cur s : str) :
  cur ≠ [] → splitlines_go after_cr cur s ≠ [].
Proof.
  revert after_cr cur. induction s as [|c s IH]; intros after_cr cur Hcur.
  - simpl. by destruct cur.
  - cbn [splitlines_go].
    destruct (after_cr && bool_decide (c = LF)); [by apply IH|].
    destruct (is_linebreak c); [done|]. apply IH. by destruct cur.
Qed.

Lemma splitlines_nonempty (s : str) : s ≠ [] → splitlines s ≠ [].
Proof.
  destruct s as [|c s]; [done|]. intros _. unfold splitlines. cbn [splitlines_go andb].
  destruct (is_linebreak c); [done|]. by apply splitlines_go_cur.
Qed.

(** ** The document classifier *)

Arguments starts_with : simpl never.

Lemma span_by_spec (f : ascii → bool) (s a b : str) :
  span_by f s = (a, b) ↔
  s = a ++ b ∧ Forall (λ c, f c = true) a ∧
  match b with [] => True | c :: _ => f c = false end.
Proof.
  revert a b. induction s as [|c s IH]; intros a b; simpl.
  - split.
    + intros [= <- <-]. by repeat split.
    + intros (H & _ & _). symmetry in H. by apply app_eq_nil in H as [-> ->].
  - destruct (f c) eqn:Hc.
    + destruct (span_by f s) as [a' b'] eqn:E.
      destruct (proj1 (IH a' b') eq_refl) as (-> & Ha' & Hb'). split.
      * intros [= <- <-]. repeat split; [by constructor|done].
      * intros (H & Ha & Hb). destruct a as [|c' a].
        -- simpl in H. subst b. congruence.
        -- injection H as <- H. apply Forall_cons in Ha as [_ Ha].
           assert ((a', b') = (a, b)) as [= -> ->]; [|done].
           apply IH. done.
    + split.
      * intros [= <- <-]. by repeat split.
      * intros (H & Ha & Hb). destruct a as [|c' a].
        -- simpl in H. by subst b.
        -- injection H as <- H. apply Forall_cons in Ha as [Ha _]. congruence.
Qed.

Lemma nonempty_true (s : str) : nonempty s = true ↔ s ≠ [].
Proof. by destruct s. Qed.

Lemma VERB_RE_match_spec (name verb : str) :
  VERB_RE_match name = Some verb ↔ cmdlet_name name verb.
Proof.
  unfold VERB_RE_match, cmdlet_name. destruct name as [|c s].
  - split; [done|]. intros (u & word & rest & _ & _ & _ & -> & H). done.
  - destruct (span_by is_lower s) as [word rest] eqn:E.
    apply span_by_spec in E as E'. destruct E' as (Hs & Hword & Hrest).
    split.
    + destruct (is_upper c) eqn:Hc; [|done].
      destruct (nonempty word && starts_with (lit "-Az") rest) eqn:Hw; [|done].
      intros [= <-]. apply andb_true_iff in Hw as [Hw%nonempty_true Hr].
      apply starts_with_spec in Hr as [r ->].
      exists c, word, r. rewrite Hs. done.
    + intros (u & word' & r & Hu & Hne & Hlow & -> & H).
      injection H as -> Hs'.
      assert (span_by is_lower s = (word', lit "-Az" ++ r)) as E'.
      { apply span_by_spec. done. }
      rewrite E in E'. injection E' as -> ->.
      rewrite Hu, (proj2 (nonempty_true word') Hne). done.
Qed.

Lemma is_cmdlet_name_spec (name : str) :
  is_cmdlet_name name = true ↔ ∃ verb, cmdlet_name name verb.
Proof.
  unfold is_cmdlet_name. destruct (VERB_RE_match name) as [verb|] eqn:E.
  - apply VERB_RE_match_spec in E. split; eauto.
  - split; [done|]. intros [verb H%VERB_RE_match_spec]. congruence.
Qed.

Lemma is_module_index_spec (fname : str) :
  is_module_index fname = true ↔ module_index_name fname.
Proof.
  unfold is_module_index, module_index_name.
  destruct (span_by is_alpha (drop 3 fname)) as [word rest] eqn:E.
  apply span_by_spec in E as E'. destruct E' as (Hs & Hword & Hrest).
  rewrite !andb_true_iff, orb_true_iff, !bool_decide_eq_true, nonempty_true.
  split.
  - intros (Hp%starts_with_drop & Hne & Hr). change (length (lit "Az.")) with 3 in Hp.
    exists word. split; [done|]. split; [done|].
    rewrite Hp, Hs. destruct Hr as [->| ->]; [left|right]; by rewrite ?app_nil_r.
  - intros (word' & Hne & Halpha & Hf).
    assert (∃ tail, (tail = [] ∨ tail = [LF]) ∧ fname = lit "Az." ++ word' ++ tail)
      as (tail & Htail & ->).
    { destruct Hf as [->| ->]; [exists [] | exists [LF]]; rewrite ?app_nil_r; auto. }
    assert (span_by is_alpha (word' ++ tail) = (word', tail)) as E'.
    { apply span_by_spec. split; [done|]. split; [done|].
      by destruct Htail as [->| ->]. }
    change (drop 3 (lit "Az." ++ word' ++ tail)) with (word' ++ tail) in E.
    rewrite E in E'. injection E' as -> ->.
    rewrite starts_with_app. done.
Qed.

(** C2, as the code has it. [parse_cmdlet_doc] returns [None] exactly when
    the base name of the file matches the pattern of a module page, or the
    name of the document, which is the [title] field when present and not
    empty and the base name otherwise, does not match the pattern of a
    command name, or no module starting with [Az.] is found, the
    [Module Name] field being taken when present and not empty and the name
    of the parent directory, if it starts with [Az.], otherwise.  In the
    other cases it returns a document with that name and that module, and
    the verb that the aggregator reads from the name is the capitalised word
    before [-Az], never the default. *)
Theorem parse_cmdlet_doc_classifies (parent file_name text : str) :
  let front := parse_front_matter text in
  let fname := stem file_name in
  let result := parse_cmdlet_doc parent (File file_name text) in
  (result = inr None ↔
     module_index_name fname
     ∨ (¬ ∃ verb, cmdlet_name (resolved_name front fname) verb)
     ∨ (∀ m, resolved_module front parent = Some m → ¬ lit "Az." `prefix_of` m))
  ∧ (∀ doc, result = inr (Some doc) →
       name doc = resolved_name front fname ∧
       resolved_module front parent = Some (module doc) ∧
       lit "Az." `prefix_of` module doc ∧
       ∃ verb, cmdlet_name (name doc) verb ∧ verb_of (name doc) = verb)
  ∧ (∃ r, result = inr r).
Proof.
  intros front fname result. unfold result, parse_cmdlet_doc, parse_cmdlet_text.
  fold front. fold fname.
  assert (match front !! lit "title" with
          | Some ((_ :: _) as title) => title
          | _ => fname
          end = resolved_name front fname) as ->.
  { unfold resolved_name. destruct (front !! lit "title") as [[|c t]|]; done. }
  set (nm := resolved_name front fname).
  set (m0 := default [] (front !! lit "Module Name")).
  set (m1 := if negb (nonempty m0) && starts_with (lit "Az.") parent
             then parent else m0).
  assert (negb (nonempty m1) || negb (starts_with (lit "Az.") m1) = false ↔
          resolved_module front parent = Some m1 ∧ lit "Az." `prefix_of` m1) as Hm.
  { unfold m1, m0, resolved_module.
    destruct (front !! lit "Module Name") as [[|c m]|]; simpl.
    - destruct (starts_with (lit "Az.") parent) eqn:Hp.
      + rewrite Hp. apply starts_with_spec in Hp as Hp'.
        rewrite decide_True by done. destruct parent; [done|]. simpl. tauto.
      + simpl. split; [done|]. intros [_ H%starts_with_spec]. done.
    - rewrite negb_false_iff. split.
      + intros H%starts_with_spec. done.
      + intros [_ H]. by apply starts_with_spec.
    - destruct (starts_with (lit "Az.") parent) eqn:Hp.
      + rewrite Hp. apply starts_with_spec in Hp as Hp'.
        rewrite decide_True by done. destruct parent; [done|]. simpl. tauto.
      + simpl. split; [done|]. intros [_ H%starts_with_spec]. done. }
  assert (∀ m, resolved_module front parent = Some m → lit "Az." `prefix_of` m →
               m = m1) as Huniq.
  { intros m. unfold m1, m0, resolved_module.
    destruct (front !! lit "Module Name") as [[|c m']|]; simpl.
    - case_decide as Hp; [|done]. intros [= <-] _.
      apply starts_with_spec in Hp. by rewrite Hp.
    - by intros [= <-].
    - case_decide as Hp; [|done]. intros [= <-] _.
      apply starts_with_spec in Hp. by rewrite Hp. }
  destruct (is_module_index fname) eqn:Hidx.
  { split; [|split; [done|by eexists]].
    split; [|done]. intros _. left. by apply is_module_index_spec. }
  assert (¬ module_index_name fname) as Hnidx.
  { intros H%is_module_index_spec. congruence. }
  destruct (is_cmdlet_name nm) eqn:Hnm; simpl.
  2:{ split; [|split; [done|by eexists]].
      split; [|done]. intros _. right. left.
      intros H%is_cmdlet_name_spec. congruence. }
  apply is_cmdlet_name_spec in Hnm as Hverb.
  destruct (negb (nonempty m1) || negb (starts_with (lit "Az.") m1)) eqn:Hmod.
  - split; [|split; [done|by eexists]].
    split; [|done]. intros _. right. right. intros m Hm1 Hpre.
    pose proof (Huniq m Hm1 Hpre) as Heq. subst m.
    assert (true = false) by (apply Hm; done). done.
  - destruct (proj1 Hm eq_refl) as [Hm1 Hpre].
    split; [|split; [|by eexists]].
    + split; [done|]. intros [H|[H|H]]; [done|done|]. by destruct (H m1).
    + intros doc [= <-]. simpl. repeat (split; [done|]).
      destruct Hverb as [verb Hverb]. exists verb. split; [done|].
      unfold verb_of. by rewrite (proj2 (VERB_RE_match_spec _ _) Hverb).
Qed.

Example parse_cmdlet_doc_examples :
  let doc := text_of ["---"; "title: Get-AzFoo"; "Module Name: Az.Foo"; "---"] in
  (name <$> parse_cmdlet_text (lit "docs") (lit "anything.md") doc)
    = Some (lit "Get-AzFoo")
  ∧ parse_cmdlet_text (lit "docs") (lit "Az.Foo.md") doc = None
  ∧ parse_cmdlet_text (lit "Az.Foo") (lit "get-Azfoo.md") [] = None
  ∧ parse_cmdlet_text (lit "docs") (lit "Get-AzFoo.md") [] = None
  ∧ (module <$> parse_cmdlet_text (lit "Az.Foo") (lit "Get-AzFoo.md") [])
    = Some (lit "Az.Foo").
Proof. repeat split; vm_compute; reflexivity. Qed.

(** An empty [title] field is present, and is not the name: the base name
    is.  As the specification words it the name would be the empty title,
    which is no command name, and the document would be skipped. *)
Lemma parse_cmdlet_doc_empty_title :
  let text := text_of ["---"; "title:"; "---"; "## SYNOPSIS"; "Gets a foo."] in
  let front := parse_front_matter text in
  front !! lit "title" = Some [] ∧
  (¬ ∃ verb, cmdlet_name (name_as_stated front (stem (lit "Get-AzFoo.md"))) verb) ∧
  parse_cmdlet_doc (lit "Az.Foo") (File (lit "Get-AzFoo.md") text) =
    inr (Some {| name := lit "Get-AzFoo"; module := lit "Az.Foo";
                 description := lit "Gets a foo."; syntax := [];
                 examples := [] |}).
Proof.
  split; [vm_compute; reflexivity|]. split; [|vm_compute; reflexivity].
  intros [verb H%VERB_RE_match_spec]. vm_compute in H. discriminate.
Qed.

(** ** The aggregator *)

(** A fold of insertions keeps, for each key, the value of the last item
    that has the key. *)
Lemma foldl_insert_last {A V} (f : A → option (str * V)) (l : list A)
    (m0 : gmap str V) (k : str) (v : V) :
  foldl (λ m x, match f x with Some (k, v) => <[k := v]> m | None => m end) m0 l
    !! k = Some v ↔
  (∃ i x, l !! i = Some x ∧ f x = Some (k, v) ∧
          ∀ j x' v', i < j → l !! j = Some x' → f x' ≠ Some (k, v'))
  ∨ (m0 !! k = Some v ∧ ∀ j x' v', l !! j = Some x' → f x' ≠ Some (k, v')).
Proof.
  revert m0. induction l as [|x l IH]; intros m0; cbn [foldl].
  - split.
    + intros H. right. split; [done|]. intros j x' v' Hj. by rewrite lookup_nil in Hj.
    + intros [(i & x & Hi & _)|[H _]]; [by rewrite lookup_nil in Hi | done].
  - rewrite IH. split.
    + intros [(i & y & Hi & Hf & Hlast)|[Hm Hnone]].
      * left. exists (S i), y. split; [done|]. split; [done|].
        intros [|j] x' v' Hj Hx'; [lia|]. apply (Hlast j); [lia | done].
      * destruct (f x) as [[k' v0]|] eqn:Hfx.
        -- destruct (decide (k' = k)) as [->|Hne].
           ++ rewrite lookup_insert_eq in Hm. injection Hm as ->.
              left. exists 0, x. split; [done|]. split; [done|].
              intros [|j] x' v' Hj Hx'; [lia|]. by apply (Hnone j).
           ++ rewrite lookup_insert_ne in Hm by done.
              right. split; [done|]. intros [|j] x' v' Hx'.
              ** injection Hx' as <-. rewrite Hfx. congruence.
              ** by apply (Hnone j).
        -- right. split; [done|]. intros [|j] x' v' Hx'.
           ++ injection Hx' as <-. rewrite Hfx. congruence.
           ++ by apply (Hnone j).
    + intros [(i & y & Hi & Hf & Hlast)|[Hm Hnone]].
      * destruct i as [|i].
        -- injection Hi as <-. right. rewrite Hf, lookup_insert_eq.
           split; [done|]. intros j x' v' Hx'. apply (Hlast (S j)); [lia | done].
        -- left. exists i, y. split; [done|]. split; [done|].
           intros j x' v' Hj Hx'. apply (Hlast (S j)); [lia | done].
      * right. split.
        -- destruct (f x) as [[k' v0]|] eqn:Hfx; [|done].
           rewrite lookup_insert_ne; [done|]. intros ->.
           by apply (Hnone 0 x v0).
        -- intros j x' v' Hx'. by apply (Hnone (S j)).
Qed.

Lemma elem_of_insert_by_name (x y : node) (l : list node) :
  y ∈ insert_by_name x l ↔ y = x ∨ y ∈ l.
Proof.
  induction l as [|z l IH]; simpl.
  - by rewrite list_elem_of_singleton, elem_of_nil; tauto.
  - destruct (str_lt (node_name z) (node_name x)).
    + rewrite !elem_of_cons, IH. tauto.
    + rewrite !elem_of_cons. tauto.
Qed.

(** [sorted] rearranges the list, and leaves no entry before one of a
    smaller name. *)
Lemma insert_by_name_Permutation (x : node) (l : list node) :
  insert_by_name x l ≡ₚ x :: l.
Proof.
  induction l as [|y l IH]; simpl; [done|].
  destruct (str_lt (node_name y) (node_name x)); [|done].
  rewrite IH. apply Permutation_swap.
Qed.

Lemma sorted_Permutation (l : list node) : sorted l ≡ₚ l.
Proof.
  unfold sorted. induction l as [|x l IH]; simpl; [done|].
  by rewrite insert_by_name_Permutation, IH.
Qed.

Lemma str_lt_asym (a b : str) : str_lt a b = true → str_lt b a = false.
Proof.
  revert b. induction a as [|x a IH]; intros [|y b]; simpl; try done.
  destruct (N.ltb_spec (code x) (code y)), (N.ltb_spec (code y) (code x));
    try done; try lia. apply IH.
Qed.

Lemma str_lt_trans (a b c : str) :
  str_lt a b = true → str_lt b c = true → str_lt a c = true.
Proof.
  revert b c. induction a as [|x a IH]; intros [|y b] [|z c]; simpl; try done.
  destruct (N.ltb_spec (code x) (code y)), (N.ltb_spec (code y) (code z)),
    (N.ltb_spec (code x) (code z)); try done; try lia;
    destruct (N.ltb_spec (code y) (code x)), (N.ltb_spec (code z) (code y));
    try done; try lia.
  assert (code x = code z) as -> by lia.
  rewrite N.ltb_irrefl. apply IH.
Qed.


Lemma elem_of_sorted (y : node) (l : list node) : y ∈ sorted l ↔ y ∈ l.
Proof.
  unfold sorted. induction l as [|x l IH]; simpl; [done|].
  rewrite elem_of_insert_by_name, elem_of_cons, IH. done.
Qed.

Lemma str_le_trans (a b c : str) :
  str_lt b a = false → str_lt c b = false → str_lt c a = false.
Proof.
  revert b c. induction a as [|x a IH]; intros [|y b] [|z c]; simpl; try done.
  destruct (N.ltb_spec (code y) (code x)), (N.ltb_spec (code z) (code y)),
    (N.ltb_spec (code z) (code x)); try done; try lia;
    destruct (N.ltb_spec (code x) (code y)), (N.ltb_spec (code y) (code z)),
      (N.ltb_spec (code x) (code z)); try done; try lia.
  apply IH.
Qed.

Lemma sorted_ordered (l : list node) :
  StronglySorted (λ x y, str_lt (node_name y) (node_name x) = false) (sorted l).
Proof.
  unfold sorted. induction l as [|x l IH]; simpl; [constructor|].
  revert IH. generalize (foldr insert_by_name [] l). clear l.
  intros l Hl. induction Hl as [|y l Hl IH Hy]; simpl.
  - by repeat constructor.
  - destruct (str_lt (node_name y) (node_name x)) eqn:E.
    + constructor; [done|]. apply Forall_forall. intros z Hz.
      apply elem_of_insert_by_name in Hz as [->|Hz].
      * by apply str_lt_asym.
      * rewrite Forall_forall in Hy. by apply Hy.
    + constructor; [by constructor|]. constructor; [done|].
      apply Forall_forall. intros z Hz. rewrite Forall_forall in Hy.
      eapply str_le_trans; [exact E | by apply Hy].
Qed.

Lemma cmdlet_loop_inr (module_name category : str) (files : list node)
    (st st' : list ManifestEntry * gmap str str * gmap str CmdletData) :
  cmdlet_loop module_name category files st = inr st' →
  st' = foldl (λ st doc, record_cmdlet module_name category doc st) st
          (omap (parse_file module_name) files).
Proof.
  revert st. induction files as [|f files IH]; intros st; cbn [cmdlet_loop].
  - by intros [= <-].
  - destruct f as [nm text|nm cs]; [|discriminate].
    cbn [parse_cmdlet_doc omap list_omap parse_file].
    destruct (parse_cmdlet_text module_name nm text) as [doc|]; intros H%IH; done.
Qed.

Lemma record_cmdlet_fold (module_name : str) (docs : list CommandDoc)
    (es : list ManifestEntry) (ds : gmap str str) (cs : gmap str CmdletData) :
  foldl (λ st doc, record_cmdlet module_name (get_category module_name) doc st)
    (es, ds, cs) docs =
  (es ++ (entry_of <$> ((λ doc, (module_name, doc)) <$> docs)),
   foldl (insert_field desc_field) ds docs,
   foldl (insert_field cmd_field) cs docs).
Proof.
  revert es ds cs. induction docs as [|doc docs IH]; intros es ds cs.
  - simpl. by rewrite app_nil_r.
  - cbn [foldl]. unfold record_cmdlet at 2. rewrite IH.
    rewrite !fmap_cons, <- app_assoc.
    unfold insert_field at 2 4, desc_field, cmd_field.
    by destruct (description doc).
Qed.

Lemma foldl_fmap_snd {V} (f : CommandDoc → option (str * V)) (nm : str)
    (docs : list CommandDoc) (m : gmap str V) :
  foldl (insert_field (λ a : str * CommandDoc, f a.2)) m
    ((λ doc, (nm, doc)) <$> docs) =
  foldl (insert_field f) m docs.
Proof.
  revert m. induction docs as [|doc docs IH]; intros m; [done|].
  rewrite fmap_cons. cbn [foldl]. by rewrite IH.
Qed.

(** The state after the loop over the entries of the version directory. *)
Lemma module_loop_inr (module_version_map : gmap str str) (dirs : list node)
    (st st' : scan_state) :
  module_loop module_version_map dirs st = inr st' →
  manifest_entries st' = manifest_entries st ++ (entry_of <$> accepted_of dirs) ∧
  descriptions st' =
    foldl (insert_field (λ a : str * CommandDoc, desc_field a.2))
      (descriptions st) (accepted_of dirs) ∧
  modules_data st' =
    foldl (insert_field (bundle_field module_version_map)) (modules_data st)
      (filter (λ d, is_dir d = true ∧
                    starts_with (lit "Az.") (node_name d) = true) dirs).
Proof.
  revert st. induction dirs as [|d dirs IH]; intros st; cbn [module_loop].
  - intros [= <-]. unfold accepted_of. simpl. by rewrite app_nil_r.
  - unfold accepted_of in *.
    destruct (is_dir d) eqn:Hd; cbn [negb].
    2:{ rewrite filter_cons_False by (intros [? ?]; congruence). apply IH. }
    destruct (starts_with (lit "Az.") (node_name d)) eqn:Hp; cbn [negb].
    2:{ rewrite filter_cons_False by (intros [? ?]; congruence). apply IH. }
    rewrite filter_cons_True by done.
    destruct (cmdlet_loop _ _ _ _) as [e|[[es ds] cs]] eqn:Hloop; [discriminate|].
    apply cmdlet_loop_inr in Hloop. rewrite record_cmdlet_fold in Hloop.
    fold (accepted_in d) in Hloop.
    injection Hloop as -> -> ->.
    intros (H1 & H2 & H3)%IH. cbn [manifest_entries descriptions modules_data] in *.
    rewrite bind_cons, fmap_app, foldl_app, foldl_fmap_snd.
    split; [by rewrite H1, <- app_assoc|]. split; [done|].
    rewrite H3. cbn [foldl]. f_equal.
    unfold insert_field at 2, bundle_field. fold (cmdlets_of d).
    unfold insert_field. by destruct (bool_decide (cmdlets_of d = ∅)).
Qed.

Lemma version_loop_inr (files : list node) (m0 mvm : gmap str str) (mn : str) :
  version_loop files m0 = inr mvm →
  match mvm !! mn with
  | Some mv =>
      m0 !! mn = Some mv ∨
      ∃ file_name text,
        File file_name text ∈ files ∧
        parse_front_matter text !! lit "Module Name" = Some mn ∧
        parse_front_matter text !! lit "Module Version" = Some mv
  | None =>
      m0 !! mn = None ∧
      ∀ file_name text mv,
        File file_name text ∈ files →
        parse_front_matter text !! lit "Module Name" = Some mn →
        parse_front_matter text !! lit "Module Version" ≠ Some mv
  end.
Proof.
  revert m0. induction files as [|f files IH]; intros m0; cbn [version_loop].
  - intros [= <-]. destruct (m0 !! mn); [by left|].
    split; [done|]. intros ??? H. by apply not_elem_of_nil in H.
  - destruct f as [nm text|nm cs]; [|discriminate].
    intros H%IH. clear IH.
    set (fm := parse_front_matter text) in *.
    set (m1 := match fm !! lit "Module Version", fm !! lit "Module Name" with
               | Some mv, Some mn =>
                   match m0 !! mn with
                   | None => <[mn := mv]> m0
                   | Some _ => m0
                   end
               | _, _ => m0
               end) in H.
    assert (∀ mv, m1 !! mn = Some mv →
                  m0 !! mn = Some mv ∨
                  (fm !! lit "Module Name" = Some mn ∧
                   fm !! lit "Module Version" = Some mv)) as Ha.
    { intros mv. unfold m1.
      destruct (fm !! lit "Module Version") as [mv0|];
        destruct (fm !! lit "Module Name") as [mn0|]; auto.
      destruct (m0 !! mn0) eqn:Hold; auto.
      destruct (decide (mn0 = mn)) as [->|].
      - rewrite lookup_insert_eq. intros [= ->]. auto.
      - rewrite lookup_insert_ne by done. auto. }
    assert (m1 !! mn = None →
            m0 !! mn = None ∧
            ∀ mv, fm !! lit "Module Name" = Some mn →
                  fm !! lit "Module Version" ≠ Some mv) as Hb.
    { unfold m1.
      destruct (fm !! lit "Module Version") as [mv0|];
        destruct (fm !! lit "Module Name") as [mn0|];
        try (intros; split; [done|]; congruence).
      destruct (m0 !! mn0) eqn:Hold.
      - intros Hn. split; [done|]. intros mv [= ->]. congruence.
      - destruct (decide (mn0 = mn)) as [->|]; [by rewrite lookup_insert_eq|].
        rewrite lookup_insert_ne by done. intros. split; [done|]. congruence. }
    destruct (mvm !! mn) as [mv|].
    + destruct H as [H|(nm' & text' & H1 & H2)].
      * destruct (Ha mv H) as [?|[? ?]]; [by left|].
        right. exists nm, text. split; [by left | done].
      * right. exists nm', text'. split; [by right | done].
    + destruct H as [H1 H2]. destruct (Hb H1) as [? Hb']. split; [done|].
      intros nm' text' mv' [[= -> ->]|H']%elem_of_cons;
        [by apply Hb' | by eapply H2].
Qed.

Lemma version_match_at_sound (s v : str) :
  version_match_at s = Some v →
  dotted_version v ∧ ∃ post, s = lit "azps-" ++ v ++ post.
Proof.
  unfold version_match_at.
  destruct (starts_with (lit "azps-") s) eqn:Hp; [|done].
  apply starts_with_drop in Hp. change (length (lit "azps-")) with 5 in Hp.
  destruct (span_by is_digit (drop 5 s)) as [d1 r1] eqn:E1.
  apply span_by_spec in E1 as (H1 & Hd1 & _).
  destruct (nonempty d1 && starts_with (lit ".") r1) eqn:N1; [|done].
  apply andb_true_iff in N1 as [N1%nonempty_true P1%starts_with_drop].
  change (length (lit ".")) with 1 in P1.
  destruct (span_by is_digit (drop 1 r1)) as [d2 r2] eqn:E2.
  apply span_by_spec in E2 as (H2 & Hd2 & _).
  destruct (nonempty d2 && starts_with (lit ".") r2) eqn:N2; [|done].
  apply andb_true_iff in N2 as [N2%nonempty_true P2%starts_with_drop].
  change (length (lit ".")) with 1 in P2.
  destruct (span_by is_digit (drop 1 r2)) as [d3 r3] eqn:E3.
  apply span_by_spec in E3 as (H3 & Hd3 & _).
  destruct (nonempty d3) eqn:N3; [|done]. apply nonempty_true in N3.
  intros [= <-]. split.
  - exists d1, d2, d3. repeat split; try done.
    rewrite !Forall_app. done.
  - exists r3. rewrite Hp at 1. rewrite H1, P1, H2, P2, H3.
    repeat (rewrite <- app_assoc; simpl). done.
Qed.

Lemma version_match_at_complete (v post : str) :
  dotted_version v → is_Some (version_match_at (lit "azps-" ++ v ++ post)).
Proof.
  intros (d1 & d2 & d3 & N1 & N2 & N3 & Hd & ->).
  apply Forall_app in Hd as [Hd1 Hd]. apply Forall_app in Hd as [Hd2 Hd3].
  unfold version_match_at. rewrite starts_with_app.
  change (drop 5 (lit "azps-" ++ ?x)) with x. rewrite <- !app_assoc.
  assert (span_by is_digit (d1 ++ lit "." ++ d2 ++ lit "." ++ d3 ++ post)
          = (d1, lit "." ++ d2 ++ lit "." ++ d3 ++ post)) as ->.
  { by apply span_by_spec. }
  rewrite (proj2 (nonempty_true d1) N1), starts_with_app. cbn [andb].
  change (drop 1 (lit "." ++ ?x)) with x.
  assert (span_by is_digit (d2 ++ lit "." ++ d3 ++ post)
          = (d2, lit "." ++ d3 ++ post)) as ->.
  { by apply span_by_spec. }
  rewrite (proj2 (nonempty_true d2) N2), starts_with_app. cbn [andb].
  change (drop 1 (lit "." ++ ?x)) with x.
  destruct (span_by is_digit (d3 ++ post)) as [a b] eqn:E.
  apply span_by_spec in E as (H & Ha & Hb).
  destruct a as [|c a]; [|by eexists].
  destruct d3 as [|c d3]; [done|]. simpl in H. subst b.
  apply Forall_cons in Hd3 as [Hc _]. congruence.
Qed.

Lemma version_search_sound (s v : str) :
  version_search s = Some v → version_in s v.
Proof.
  induction s as [|c s IH]; cbn [version_search].
  - destruct (version_match_at []) eqn:E; [|done]. intros [= ->].
    apply version_match_at_sound in E as [Hv [post ->]].
    split; [done|]. by exists [], post.
  - destruct (version_match_at (c :: s)) eqn:E.
    + intros [= ->]. apply version_match_at_sound in E as [Hv [post ->]].
      split; [done|]. by exists [], post.
    + intros [Hv (pre & post & ->)]%IH. split; [done|].
      by exists (c :: pre), post.
Qed.

Lemma version_search_complete (s v : str) :
  version_in s v → is_Some (version_search s).
Proof.
  intros [Hv (pre & post & ->)]. induction pre as [|c pre IH].
  - destruct (version_match_at_complete v post Hv) as [v' E].
    cbn [app]. destruct (lit "azps-" ++ v ++ post) eqn:Hs;
      cbn [version_search]; rewrite E; by eexists.
  - cbn [app version_search].
    destruct (version_match_at (c :: pre ++ lit "azps-" ++ v ++ post));
      [by eexists | done].
Qed.

(** What [parse_cmdlet_text] accepts. *)
Lemma parse_cmdlet_text_Some (parent file_name text : str) (doc : CommandDoc) :
  parse_cmdlet_text parent file_name text = Some doc →
  is_cmdlet_name (name doc) = true ∧ starts_with (lit "Az.") (module doc) = true.
Proof.
  unfold parse_cmdlet_text.
  destruct (is_module_index _); [done|].
  destruct (is_cmdlet_name _) eqn:Hn; [|done]. cbn [negb].
  destruct (negb (nonempty _) || negb (starts_with _ _)) eqn:Hm; [done|].
  intros [= <-]. cbn [name module]. split; [done|].
  apply orb_false_iff in Hm as [_ Hm]. by apply negb_false_iff in Hm.
Qed.

Lemma elem_of_accepted_in (mod_dir : node) (doc : CommandDoc) :
  doc ∈ accepted_in mod_dir →
  ∃ file_name text,
    File file_name text ∈ entries mod_dir ∧
    parse_cmdlet_text (node_name mod_dir) file_name text = Some doc.
Proof.
  unfold accepted_in. rewrite list_elem_of_omap.
  intros (f & Hf & Hdoc). destruct f as [nm text|]; [|done]. simpl in Hdoc.
  exists nm, text. split; [|done].
  rewrite elem_of_sorted in Hf. unfold glob_md in Hf.
  rewrite list_elem_of_filter in Hf. tauto.
Qed.

Lemma elem_of_module_dirs (azps_dir d : node) :
  d ∈ module_dirs azps_dir ↔
  d ∈ entries azps_dir ∧ is_dir d = true ∧ lit "Az." `prefix_of` node_name d.
Proof.
  unfold module_dirs.
  rewrite list_elem_of_filter, elem_of_sorted, starts_with_spec. tauto.
Qed.

Lemma elem_of_accepted (azps_dir : node) (a : str * CommandDoc) :
  a ∈ accepted azps_dir ↔
  ∃ d, d ∈ module_dirs azps_dir ∧ a.1 = node_name d ∧ a.2 ∈ accepted_in d.
Proof.
  unfold accepted. rewrite list_elem_of_bind. split.
  - intros (d & Ha & Hd). apply list_elem_of_fmap in Ha as (doc & -> & Hdoc). eauto.
  - intros (d & Hd & H1 & H2). exists d. split; [|done].
    apply list_elem_of_fmap. exists a.2. split; [|done].
    destruct a. simpl in *. by subst.
Qed.

(** The state after the two scans of the version directory. *)
Lemma scan_inr (azps_dir : node) (st : scan_state) :
  scan azps_dir = inr st →
  ∃ module_version_map,
    version_loop (rglob_md azps_dir) ∅ = inr module_version_map ∧
    manifest_entries st = entry_of <$> accepted azps_dir ∧
    descriptions st =
      foldl (insert_field (λ a : str * CommandDoc, desc_field a.2)) ∅
        (accepted azps_dir) ∧
    modules_data st =
      foldl (insert_field (bundle_field module_version_map)) ∅
        (module_dirs azps_dir).
Proof.
  unfold scan.
  destruct (version_loop (rglob_md azps_dir) ∅) as [e|mvm]; [discriminate|].
  intros (H1 & H2 & H3)%module_loop_inr. exists mvm. done.
Qed.

Lemma written_app (tr1 tr2 : list event) :
  written (tr1 ++ tr2) = written tr1 ++ written tr2.
Proof.
  induction tr1 as [|[m|p|p c] tr1 IH]; simpl; by rewrite ?IH.
Qed.

Lemma insert_by_key_Permutation {V} (x : str * V) (l : list (str * V)) :
  insert_by_key x l ≡ₚ x :: l.
Proof.
  induction l as [|y l IH]; cbn [insert_by_key]; [done|].
  destruct (str_lt y.1 x.1); [|done].
  rewrite IH. apply Permutation_swap.
Qed.

(** The items of a dictionary are its entries, each one once. *)
Lemma items_by_key_Permutation {V} (m : gmap str V) :
  items_by_key m ≡ₚ map_to_list m.
Proof.
  unfold items_by_key. induction (map_to_list m) as [|x l IH]; cbn [foldr]; [done|].
  by rewrite insert_by_key_Permutation, IH.
Qed.

Lemma elem_of_items_by_key {V} (m : gmap str V) (k : str) (v : V) :
  (k, v) ∈ items_by_key m ↔ m !! k = Some v.
Proof. by rewrite items_by_key_Permutation, elem_of_map_to_list. Qed.

Lemma NoDup_fst_items_by_key {V} (m : gmap str V) : NoDup (items_by_key m).*1.
Proof. rewrite items_by_key_Permutation. apply NoDup_fst_map_to_list. Qed.

Lemma written_write_all (version : str) (st : scan_state) :
  written (write_all version st) =
  (MANIFEST_PATH, ManifestJson version (manifest_entries st))
  :: (DESCRIPTIONS_PATH, DescriptionsJson (descriptions st))
  :: ((λ kv : str * ModuleBundle, (module_path kv.1, ModuleJson kv.2))
        <$> items_by_key (modules_data st)).
Proof.
  unfold write_all. rewrite !written_app. cbn [written app]. do 2 f_equal.
  rewrite app_nil_r. induction (items_by_key (modules_data st)) as [|kv l IH];
    [done|]. cbn [map written]. by rewrite IH.
Qed.

(** A run that ends normally resolved a version directory, scanned it, and
    wrote what the scan gathered. *)
Lemma main_Done (argv : list str) (resolve : str → option node) (tr : list event) :
  main argv resolve = (Done, tr) →
  ∃ azps_dir st,
    resolved_run argv resolve azps_dir ∧ scan azps_dir = inr st ∧
    written tr =
      (MANIFEST_PATH,
       ManifestJson (default (lit "0.0.0") (version_search (node_name azps_dir)))
         (manifest_entries st))
      :: (DESCRIPTIONS_PATH, DescriptionsJson (descriptions st))
      :: ((λ kv : str * ModuleBundle, (module_path kv.1, ModuleJson kv.2))
            <$> items_by_key (modules_data st)).
Proof.
  unfold main. destruct argv as [|a0 [|docs_root argv]]; [done|done|].
  destruct (resolve docs_root) as [root|] eqn:Hroot; [|done].
  destruct (find_latest_azps_dir root) as [e|azps_dir] eqn:Hfind; [done|].
  destruct (scan azps_dir) as [e|st] eqn:Hscan; [done|].
  intros [= <-]. exists azps_dir, st. split; [by exists docs_root, root|].
  split; [done|]. cbn [app written]. by rewrite written_write_all.
Qed.

Lemma foldl_insert_field_last {A V} (f : A → option (str * V)) (l : list A)
    (k : str) (v : V) :
  foldl (insert_field f) ∅ l !! k = Some v ↔
  ∃ i x, l !! i = Some x ∧ f x = Some (k, v) ∧
         ∀ j x' v', i < j → l !! j = Some x' → f x' ≠ Some (k, v').
Proof.
  unfold insert_field. rewrite foldl_insert_last, lookup_empty.
  split; [intros [H|[H _]]; done | auto].
Qed.

Lemma descriptions_lookup (accs : list (str * CommandDoc)) (cname desc : str) :
  foldl (insert_field (λ a : str * CommandDoc, desc_field a.2)) ∅ accs
    !! cname = Some desc ↔
  last_description accs cname desc.
Proof.
  rewrite foldl_insert_field_last. unfold last_description, desc_field.
  split.
  - intros (i & a & Hi & Hf & Hlast). exists i, a. split; [done|].
    destruct (description a.2) as [|c d] eqn:Hd; [done|].
    injection Hf as <- <-. repeat split; try done.
    intros j a' Hj Ha' Hn. destruct (description a'.2) as [|c' d'] eqn:Hd'; [done|].
    destruct (Hlast j a' (c' :: d') Hj Ha'). by rewrite Hd', Hn.
  - intros (i & a & Hi & Hn & Hd & Hne & Hlast). exists i, a. split; [done|].
    split.
    + rewrite Hd. destruct desc; [done|]. by rewrite Hn.
    + intros j a' v' Hj Ha'. destruct (description a'.2) as [|c' d'] eqn:Hd'; [done|].
      intros [= Hn' _]. specialize (Hlast j a' Hj Ha' Hn'). congruence.
Qed.

Lemma cmdlets_of_lookup (mod_dir : node) (cname : str) (data : CmdletData) :
  cmdlets_of mod_dir !! cname = Some data ↔
  last_cmdlet (accepted_in mod_dir) cname data.
Proof.
  unfold cmdlets_of. rewrite foldl_insert_field_last.
  unfold last_cmdlet, cmd_field. split.
  - intros (i & doc & Hi & [= <- <-] & Hlast). exists i, doc.
    repeat split; try done. intros j doc' Hj Hdoc' Hn.
    destruct (Hlast j doc' (cmdlet_data_of doc') Hj Hdoc'). by rewrite Hn.
  - intros (i & doc & Hi & <- & -> & Hlast). exists i, doc.
    repeat split; try done. intros j doc' v' Hj Hdoc' [= Hn _].
    by apply (Hlast j doc').
Qed.

(** The bundles of [modules_data] come from module directories with a
    mapping that is not empty. *)
Lemma modules_data_lookup (module_version_map : gmap str str) (dirs : list node)
    (k : str) (b : ModuleBundle) :
  foldl (insert_field (bundle_field module_version_map)) ∅ dirs !! k = Some b →
  ∃ d, d ∈ dirs ∧ k = node_name d ∧ cmdlets_of d ≠ ∅ ∧
       b = {| bundle_module := node_name d;
              bundle_version :=
                default (lit "0.0.0") (module_version_map !! node_name d);
              bundle_cmdlets := cmdlets_of d |}.
Proof.
  rewrite foldl_insert_field_last. intros (i & d & Hi & Hf & _).
  exists d. split; [by eapply list_elem_of_lookup_2|].
  unfold bundle_field in Hf. case_bool_decide as Hc; [done|].
  by injection Hf as <- <-.
Qed.

Lemma module_version_of (azps_dir : node) (mvm : gmap str str) (mn : str) :
  version_loop (rglob_md azps_dir) ∅ = inr mvm →
  module_version azps_dir mn (default (lit "0.0.0") (mvm !! mn)).
Proof.
  intros H%(version_loop_inr _ _ _ mn). unfold module_version, declares_version.
  destruct (mvm !! mn) as [mv|]; simpl.
  - left. destruct H as [H|H]; [by rewrite lookup_empty in H | done].
  - right. split; [done|]. destruct H as [_ H].
    intros mv (nm & text & H1 & H2 & H3). by apply (H nm text mv).
Qed.

Lemma manifest_version_of (azps_dir : node) :
  manifest_version azps_dir
    (default (lit "0.0.0") (version_search (node_name azps_dir))).
Proof.
  unfold manifest_version.
  destruct (version_search (node_name azps_dir)) as [v|] eqn:E; simpl.
  - left. by apply version_search_sound.
  - right. split; [done|]. intros v [v' H]%version_search_complete. congruence.
Qed.

(** The module files that a finished run wrote. *)
Lemma written_module_file (azps_dir : node) (st : scan_state) (version : str)
    (path : str) (b : ModuleBundle) :
  (path, ModuleJson b) ∈
    (MANIFEST_PATH, ManifestJson version (manifest_entries st))
    :: (DESCRIPTIONS_PATH, DescriptionsJson (descriptions st))
    :: ((λ kv : str * ModuleBundle, (module_path kv.1, ModuleJson kv.2))
          <$> items_by_key (modules_data st)) →
  ∃ k, modules_data st !! k = Some b ∧ path = module_path k.
Proof.
  intros [H|[H|H]%elem_of_cons]%elem_of_cons; [done|done|].
  apply list_elem_of_fmap in H as ([k b'] & [= -> ->] & H).
  apply elem_of_items_by_key in H. eauto.
Qed.

(** C4. In every run that ends normally, each entry of the manifest has a
    name that matches the pattern of a command name and a module that
    starts with [Az.]; a module file is written only for a mapping of
    commands that is not empty; the version of the manifest is read from
    the name of the version directory and that of a module from the front
    matter of a document, each with the fallback [0.0.0] when there is
    nothing to read. *)
Theorem main_output_invariants (argv : list str) (resolve : str → option node)
    (tr : list event) :
  main argv resolve = (Done, tr) →
  ∃ azps_dir version manifest,
    resolved_run argv resolve azps_dir ∧
    (MANIFEST_PATH, ManifestJson version manifest) ∈ written tr ∧
    (∀ path v d, (path, ManifestJson v d) ∈ written tr →
                 v = version ∧ d = manifest) ∧
    (∀ e, e ∈ manifest →
          (∃ verb, cmdlet_name (entry_n e) verb) ∧
          lit "Az." `prefix_of` entry_m e) ∧
    manifest_version azps_dir version ∧
    (∀ path b, (path, ModuleJson b) ∈ written tr →
               bundle_cmdlets b ≠ ∅ ∧
               module_version azps_dir (bundle_module b) (bundle_version b)).
Proof.
  intros (azps_dir & st & Hrun & Hscan & Hw)%main_Done.
  apply scan_inr in Hscan as (mvm & Hmvm & Hentries & Hdescs & Hmods).
  exists azps_dir, (default (lit "0.0.0") (version_search (node_name azps_dir))),
    (manifest_entries st).
  split; [done|]. rewrite Hw. split; [by left|]. split; [|split; [|split]].
  - intros path v d [H|[H|H]%elem_of_cons]%elem_of_cons.
    + by injection H as _ -> ->.
    + done.
    + apply list_elem_of_fmap in H as (kv & H & _). done.
  - intros e. rewrite Hentries.
    intros (a & -> & Ha)%list_elem_of_fmap.
    apply elem_of_accepted in Ha as (d & Hd & Ha1 & Ha2).
    apply elem_of_accepted_in in Ha2 as (nm & text & _ & Hdoc).
    apply parse_cmdlet_text_Some in Hdoc as [Hname _].
    apply elem_of_module_dirs in Hd as (_ & _ & Hpre).
    cbn [entry_of entry_n entry_m]. split.
    + by apply is_cmdlet_name_spec.
    + by rewrite Ha1.
  - apply manifest_version_of.
  - intros path b (k & Hk & _)%(written_module_file azps_dir).
    rewrite Hmods in Hk.
    apply modules_data_lookup in Hk as (d & _ & _ & Hne & ->).
    cbn [bundle_cmdlets bundle_module bundle_version]. split; [done|].
    by apply module_version_of.
Qed.

Lemma main_output_invariants_witness :
  main ex_argv ex_resolve = (Done, ex_trace) ∧
  ∃ version manifest,
    (MANIFEST_PATH, ManifestJson version manifest) ∈ written ex_trace ∧
    ∀ e, e ∈ manifest → lit "Az." `prefix_of` entry_m e.
Proof.
  split; [vm_compute; reflexivity|].
  destruct (main_output_invariants ex_argv ex_resolve ex_trace)
    as (azps_dir & version & manifest & _ & H1 & _ & H2 & _).
  - vm_compute; reflexivity.
  - exists version, manifest. split; [exact H1|].
    intros e He. exact (proj2 (H2 e He)).
Defined.

(** C8, as the code has it. The description index of a run is keyed by
    command name; the description of a document replaces an earlier one
    under the same name only when it is not empty, so the index holds, for
    each name, the description of the last accepted document of that name
    whose description is not empty, and nothing when there is none. *)
Theorem descriptions_keep_last_nonempty (argv : list str)
    (resolve : str → option node) (tr : list event) :
  main argv resolve = (Done, tr) →
  ∃ azps_dir index,
    resolved_run argv resolve azps_dir ∧
    (DESCRIPTIONS_PATH, DescriptionsJson index) ∈ written tr ∧
    (∀ path m, (path, DescriptionsJson m) ∈ written tr → m = index) ∧
    ∀ cname desc,
      index !! cname = Some desc ↔
      last_description (accepted azps_dir) cname desc.
Proof.
  intros (azps_dir & st & Hrun & Hscan & Hw)%main_Done.
  apply scan_inr in Hscan as (mvm & Hmvm & Hentries & Hdescs & Hmods).
  exists azps_dir, (descriptions st). split; [done|]. rewrite Hw.
  split; [right; by left|]. split.
  - intros path m [H|[H|H]%elem_of_cons]%elem_of_cons.
    + done.
    + by injection H as _ ->.
    + apply list_elem_of_fmap in H as (kv & H & _). done.
  - intros cname desc. rewrite Hdescs. apply descriptions_lookup.
Qed.

Lemma descriptions_keep_last_nonempty_witness :
  main ex_argv ex_resolve = (Done, ex_trace) ∧
  ∃ index, (DESCRIPTIONS_PATH, DescriptionsJson index) ∈ written ex_trace.
Proof.
  split; [vm_compute; reflexivity|].
  destruct (descriptions_keep_last_nonempty ex_argv ex_resolve ex_trace)
    as (azps_dir & index & _ & H & _).
  - vm_compute; reflexivity.
  - exists index. exact H.
Defined.

(** Two accepted documents of one module have the name [Get-AzFoo]; the
    later one has no synopsis, and the index keeps the description of the
    earlier one: the later document did not overwrite it. *)
Lemma descriptions_later_empty_kept :
  main ex_argv ex_resolve = (Done, ex_trace) ∧
  ((λ a : str * CommandDoc, (name a.2, description a.2)) <$> accepted ex_azps) =
    [ (lit "Get-AzBar", lit "Gets a bar.");
      (lit "Get-AzFoo", lit "Gets a foo.");
      (lit "Get-AzFoo", []) ] ∧
  ∃ index,
    written ex_trace !! 1 = Some (DESCRIPTIONS_PATH, DescriptionsJson index) ∧
    index !! lit "Get-AzFoo" = Some (lit "Gets a foo.").
Proof.
  split; [vm_compute; reflexivity|]. split; [vm_compute; reflexivity|].
  eexists. split; vm_compute; reflexivity.
Qed.

(** C10, as the code has it. The manifest of a run has exactly one entry for
    each accepted document, in processing order, so two accepted documents
    with the same command name give two entries.  The mapping of a module
    holds at most one value for a name, that of the last document of the
    module with the name; the description index holds at most one value for
    a name, that of the last accepted document with the name whose
    description is not empty. *)
Theorem manifest_lists_every_accepted_document (argv : list str)
    (resolve : str → option node) (tr : list event) :
  main argv resolve = (Done, tr) →
  ∃ azps_dir version manifest index,
    resolved_run argv resolve azps_dir ∧
    (MANIFEST_PATH, ManifestJson version manifest) ∈ written tr ∧
    (DESCRIPTIONS_PATH, DescriptionsJson index) ∈ written tr ∧
    manifest = entry_of <$> accepted azps_dir ∧
    (∀ i j a a',
       i ≠ j → accepted azps_dir !! i = Some a → accepted azps_dir !! j = Some a' →
       name a.2 = name a'.2 →
       ∃ e e', manifest !! i = Some e ∧ manifest !! j = Some e' ∧
               entry_n e = name a.2 ∧ entry_n e' = name a.2) ∧
    (∀ path b,
       (path, ModuleJson b) ∈ written tr →
       ∃ d, d ∈ module_dirs azps_dir ∧ bundle_module b = node_name d ∧
            path = module_path (node_name d) ∧
            ∀ cname data,
              bundle_cmdlets b !! cname = Some data ↔
              last_cmdlet (accepted_in d) cname data) ∧
    (∀ cname desc,
       index !! cname = Some desc ↔
       last_description (accepted azps_dir) cname desc).
Proof.
  intros (azps_dir & st & Hrun & Hscan & Hw)%main_Done.
  apply scan_inr in Hscan as (mvm & Hmvm & Hentries & Hdescs & Hmods).
  exists azps_dir, (default (lit "0.0.0") (version_search (node_name azps_dir))),
    (manifest_entries st), (descriptions st).
  split; [done|]. rewrite Hw. split; [by left|]. split; [right; by left|].
  split; [done|]. split; [|split].
  - intros i j a a' Hij Hi Hj Hn. exists (entry_of a), (entry_of a').
    rewrite Hentries, !list_lookup_fmap, Hi, Hj. done.
  - intros path b (k & Hk & ->)%(written_module_file azps_dir).
    rewrite Hmods in Hk.
    apply modules_data_lookup in Hk as (d & Hd & -> & Hne & ->).
    exists d. cbn [bundle_cmdlets bundle_module]. repeat (split; [done|]).
    intros cname data. apply cmdlets_of_lookup.
  - intros cname desc. rewrite Hdescs. apply descriptions_lookup.
Qed.

Lemma manifest_lists_every_accepted_document_witness :
  main ex_argv ex_resolve = (Done, ex_trace) ∧
  ∃ version manifest,
    (MANIFEST_PATH, ManifestJson version manifest) ∈ written ex_trace ∧
    length manifest = 3.
Proof.
  split; [vm_compute; reflexivity|].
  destruct (manifest_lists_every_accepted_document ex_argv ex_resolve ex_trace)
    as (azps_dir & version & manifest & index & Hrun & H1 & _ & H2 & _).
  - vm_compute; reflexivity.
  - exists version, manifest. split; [exact H1|].
    destruct Hrun as (docs_root & root & Ha & Hr & Hf).
    injection Ha as <-. injection Hr as <-.
    assert (azps_dir = ex_azps) as ->.
    { vm_compute in Hf. injection Hf as <-. reflexivity. }
    rewrite H2. vm_compute. reflexivity.
Defined.

(** The same command name in two modules; the document processed later has
    no synopsis.  The manifest has both entries, and the index keeps for the
    name the description of the document processed first. *)
Lemma index_keeps_earlier_description :
  main ex_argv ex_resolve_two = (Done, ex_trace_two) ∧
  ((λ a : str * CommandDoc, (a.1, name a.2, description a.2))
     <$> accepted ex_azps_two) =
    [ (lit "Az.Alpha", lit "Get-AzThing", lit "Gets the thing.");
      (lit "Az.Beta", lit "Get-AzThing", []) ] ∧
  ∃ index,
    written ex_trace_two !! 1 = Some (DESCRIPTIONS_PATH, DescriptionsJson index) ∧
    index !! lit "Get-AzThing" = Some (lit "Gets the thing.").
Proof.
  split; [vm_compute; reflexivity|]. split; [vm_compute; reflexivity|].
  eexists. split; vm_compute; reflexivity.
Qed.

(** ** The fatal errors of [main] *)

Lemma find_latest_no_candidate (root_name : str) (cs : list node) :
  (∀ d, ¬ candidate_at_1 (Dir root_name cs) d ∧
        ¬ candidate_at_2 (Dir root_name cs) d) →
  find_latest_azps_dir (Dir root_name cs) = inl FileNotFoundError.
Proof.
  intros Hno. destruct (find_latest_candidates root_name cs) as (cands & Hc & ->).
  destruct cands as [|c rest]; [done|].
  assert (candidate (Dir root_name cs) c) as [H|[_ H]] by (apply Hc; by left).
  - by destruct (Hno c).
  - by destruct (Hno c).
Qed.

(** C9. Without the positional argument, [main] prints the usage message
    and exits with the status 1, and does nothing else.  When the root
    directory has no versioned directory at either level, the run ends with
    [FileNotFoundError] and has written no file: of the output only the
    directory was made.  More generally a run that does not end normally
    has written no file. *)
Theorem main_fatal_errors (argv : list str) (resolve : str → option node) :
  (length argv < 2 →
     ∃ status, main argv resolve = (Exit status, [Print MsgUsage]) ∧ status ≠ 0%Z)
  ∧ (∀ docs_root root_name cs,
       argv !! 1 = Some docs_root →
       resolve docs_root = Some (Dir root_name cs) →
       (∀ d, ¬ candidate_at_1 (Dir root_name cs) d ∧
             ¬ candidate_at_2 (Dir root_name cs) d) →
       ∃ tr, main argv resolve = (Raised FileNotFoundError, tr) ∧
             written tr = [] ∧
             tr = [Mkdir MODULES_DIR; Print (MsgScanning docs_root)])
  ∧ (∀ o tr, main argv resolve = (o, tr) → o ≠ Done → written tr = []).
Proof.
  split; [|split].
  - intros Hlen. exists 1%Z. split; [|done].
    destruct argv as [|a0 [|a1 argv]]; [done|done|]. simpl in Hlen. lia.
  - intros docs_root root_name cs Harg Hroot Hno.
    destruct argv as [|a0 [|a1 argv]]; [done|done|]. injection Harg as ->.
    unfold main. rewrite Hroot, (find_latest_no_candidate _ _ Hno). by eexists.
  - intros o tr. unfold main.
    destruct argv as [|a0 [|docs_root argv]]; [by intros [= <- <-]..|].
    destruct (resolve docs_root) as [root|]; [|by intros [= <- <-]].
    destruct (find_latest_azps_dir root) as [e|azps_dir]; [by intros [= <- <-]|].
    destruct (scan azps_dir) as [e|st]; [by intros [= <- <-]|].
    intros [= <- <-]. done.
Qed.

Example main_fatal_errors_examples :
  main [lit "parse_docs.py"] ex_resolve = (Exit 1, [Print MsgUsage]) ∧
  main ex_argv (λ _, Some (Dir (lit "docs") [File (lit "azps-1.0.0") []]))
    = (Raised FileNotFoundError,
       [Mkdir MODULES_DIR; Print (MsgScanning (lit "docs"))]).
Proof. split; vm_compute; reflexivity. Qed.

(** ** The section extractor *)

(** C7. The text of a section runs up to the next heading of the second
    level.  Here the SYNOPSIS section is empty, and what
    [extract_section] returns for it is the heading of the next section with
    its text: the LF before [## SYNTAX] is taken by the pattern of the
    heading line, so the lookahead for an LF and [## ] does not see the next
    heading.  The second text shows that the heading need not be a line of
    its own: a heading of the third level is taken for the one that is
    looked for. *)
Theorem extract_section_empty_section :
  extract_section
    (text_of ["## SYNOPSIS"; ""; "## SYNTAX"; "Get-AzFoo [-Name] <String>"])
    (lit "SYNOPSIS")
  = text_of ["## SYNTAX"; "Get-AzFoo [-Name] <String>"]
  ∧ extract_section (text_of ["### SYNOPSIS"; "text"]) (lit "SYNOPSIS")
    = lit "text".
Proof. split; vm_compute; reflexivity. Qed.

(** Where the section has text, the result is that text. *)
Example extract_section_examples :
  extract_section
    (text_of ["# Get-AzFoo"; ""; "## synopsis"; "Gets a foo."; "More."; "";
              "## SYNTAX"; "Get-AzFoo"])
    (lit "SYNOPSIS")
  = text_of ["Gets a foo."; "More."]
  ∧ extract_section (text_of ["## SYNTAX"; "Get-AzFoo"]) (lit "SYNOPSIS") = [].
Proof. split; vm_compute; reflexivity. Qed.

(** * Further properties *)

(** ** Trimming and lines *)

Lemma lstrip_by_split (f : ascii → bool) (s : str) :
  ∃ pre, s = pre ++ lstrip_by f s ∧ Forall (λ c, f c = true) pre.
Proof.
  induction s as [|c s (pre & Hs & Hpre)]; simpl.
  - by exists [].
  - destruct (f c) eqn:Hc.
    + exists (c :: pre). split; [by rewrite Hs at 1 | by constructor].
    + by exists [].
Qed.

Lemma lstrip_by_head (f : ascii → bool) (s : str) :
  match lstrip_by f s with [] => True | c :: _ => f c = false end.
Proof.
  induction s as [|c s IH]; simpl; [done|]. by destruct (f c) eqn:Hc.
Qed.

Lemma lstrip_by_id (f : ascii → bool) (s : str) :
  match s with [] => True | c :: _ => f c = false end → lstrip_by f s = s.
Proof. destruct s as [|c s]; simpl; [done|]. by intros ->. Qed.

Lemma lstrip_by_fixed (f : ascii → bool) (s : str) :
  lstrip_by f s = s → match s with [] => True | c :: _ => f c = false end.
Proof. intros H. pose proof (lstrip_by_head f s) as Hh. by rewrite H in Hh. Qed.

Lemma rstrip_by_split (f : ascii → bool) (s : str) :
  ∃ post, s = rstrip_by f s ++ post ∧ Forall (λ c, f c = true) post.
Proof.
  unfold rstrip_by. destruct (lstrip_by_split f (reverse s)) as (pre & Hs & Hpre).
  exists (reverse pre). split; [|by apply Forall_reverse].
  rewrite <- reverse_app, <- Hs. by rewrite reverse_involutive.
Qed.

Lemma rstrip_by_id (f : ascii → bool) (s : str) :
  match reverse s with [] => True | c :: _ => f c = false end →
  rstrip_by f s = s.
Proof.
  intros H. unfold rstrip_by. rewrite lstrip_by_id by done.
  apply reverse_involutive.
Qed.

Lemma rstrip_by_last (f : ascii → bool) (s : str) :
  match reverse (rstrip_by f s) with [] => True | c :: _ => f c = false end.
Proof. unfold rstrip_by. rewrite reverse_involutive. apply lstrip_by_head. Qed.

(** The trimmed string is a middle part of the string, between characters
    of the class; it neither starts nor ends with one. *)
Lemma strip_by_split (f : ascii → bool) (s : str) :
  ∃ pre post,
    s = pre ++ strip_by f s ++ post ∧
    Forall (λ c, f c = true) pre ∧ Forall (λ c, f c = true) post.
Proof.
  unfold strip_by. destruct (lstrip_by_split f s) as (pre & Hs & Hpre).
  destruct (rstrip_by_split f (lstrip_by f s)) as (post & Hs' & Hpost).
  exists pre, post. split; [|done]. by rewrite <- Hs'.
Qed.

Lemma strip_by_ends (f : ascii → bool) (s : str) :
  match strip_by f s with [] => True | c :: _ => f c = false end ∧
  match reverse (strip_by f s) with [] => True | c :: _ => f c = false end.
Proof.
  split; [|apply rstrip_by_last]. unfold strip_by.
  destruct (rstrip_by_split f (lstrip_by f s)) as (post & Hs & _).
  pose proof (lstrip_by_head f s) as Hh. rewrite Hs in Hh.
  by destruct (rstrip_by f (lstrip_by f s)).
Qed.

Lemma strip_by_id (f : ascii → bool) (s : str) :
  match s with [] => True | c :: _ => f c = false end →
  match reverse s with [] => True | c :: _ => f c = false end →
  strip_by f s = s.
Proof.
  intros H1 H2. unfold strip_by. rewrite lstrip_by_id by done.
  by apply rstrip_by_id.
Qed.

Lemma strip_by_idemp (f : ascii → bool) (s : str) :
  strip_by f (strip_by f s) = strip_by f s.
Proof. destruct (strip_by_ends f s). by apply strip_by_id. Qed.

Lemma strip_by_fixed (f : ascii → bool) (s : str) :
  strip_by f s = s →
  match s with [] => True | c :: _ => f c = false end ∧
  match reverse s with [] => True | c :: _ => f c = false end.
Proof. intros H. pose proof (strip_by_ends f s) as Hh. by rewrite H in Hh. Qed.

Lemma Forall_strip_by (P : ascii → Prop) (f : ascii → bool) (s : str) :
  Forall P s → Forall P (strip_by f s).
Proof.
  destruct (strip_by_split f s) as (pre & post & Hs & _). intros H.
  rewrite Hs in H. apply Forall_app in H as [_ H]. by apply Forall_app in H as [H _].
Qed.

(** The lines of a string hold characters of the string, and no line
    boundary. *)
Lemma Forall_splitlines_go (P : ascii → Prop) (after_cr : bool) (cur s : str) :
  Forall P cur → Forall P s → Forall (Forall P) (splitlines_go after_cr cur s).
Proof.
  revert after_cr cur. induction s as [|c s IH]; intros after_cr cur Hcur Hs.
  - simpl. destruct cur; [constructor | constructor; [done | constructor]].
  - apply Forall_cons in Hs as [Hc Hs]. cbn [splitlines_go].
    destruct (after_cr && bool_decide (c = LF)); [by apply IH|].
    destruct (is_linebreak c).
    + constructor; [done|]. by apply IH.
    + apply IH; [|done]. apply Forall_app. split; [done|]. constructor; [done | constructor].
Qed.

Lemma splitlines_go_no_break (after_cr : bool) (cur s : str) :
  Forall (λ c, is_linebreak c = false) cur →
  Forall (Forall (λ c, is_linebreak c = false)) (splitlines_go after_cr cur s).
Proof.
  revert after_cr cur. induction s as [|c s IH]; intros after_cr cur Hcur.
  - simpl. destruct cur; [constructor | constructor; [done | constructor]].
  - cbn [splitlines_go].
    destruct (after_cr && bool_decide (c = LF)); [by apply IH|].
    destruct (is_linebreak c) eqn:Hc.
    + constructor; [done|]. by apply IH.
    + apply IH. apply Forall_app. split; [done|]. constructor; [done | constructor].
Qed.

(** One line and the LF that ends it. *)
Lemma splitlines_go_one_line (cur line : str) :
  Forall (λ c, is_linebreak c = false) line →
  splitlines_go false cur (line ++ [LF]) = [cur ++ line].
Proof.
  revert cur. induction line as [|c line IH]; intros cur H.
  - simpl. by rewrite app_nil_r.
  - apply Forall_cons in H as [Hc H]. cbn [app splitlines_go andb].
    rewrite Hc, IH by done. by rewrite <- app_assoc.
Qed.

Lemma splitlines_one_line (line : str) :
  Forall (λ c, is_linebreak c = false) line → splitlines (line ++ [LF]) = [line].
Proof. apply (splitlines_go_one_line []). Qed.

(** ** The category mapper, further *)

Lemma exact_pass_lower (s1 s2 : str) (rules : list (str * str)) :
  lower s1 = lower s2 → exact_pass s1 rules = exact_pass s2 rules.
Proof.
  intros H. induction rules as [|[key cat] rules IH]; simpl; [done|].
  by rewrite H, IH.
Qed.

Lemma partial_pass_lower (s1 s2 : str) (rules : list (str * str)) :
  lower s1 = lower s2 → partial_pass s1 rules = partial_pass s2 rules.
Proof.
  intros H. induction rules as [|[key cat] rules IH]; simpl; [done|].
  by rewrite H, IH.
Qed.

Lemma removeprefix_app (p s : str) : removeprefix p (p ++ s) = s.
Proof. unfold removeprefix. by rewrite starts_with_app, drop_app_length. Qed.

(** X1. The category does not depend on the case of the letters of the
    suffix: two module names whose suffixes after [Az.] differ only in case
    get the same category. *)
Theorem get_category_case_insensitive (s1 s2 : str) :
  lower s1 = lower s2 →
  get_category (lit "Az." ++ s1) = get_category (lit "Az." ++ s2).
Proof.
  intros H. unfold get_category, get_category_with.
  rewrite !removeprefix_app.
  by rewrite (exact_pass_lower s1 s2), (partial_pass_lower s1 s2).
Qed.

Lemma get_category_case_insensitive_witness :
  lower (lit "KEYVAULT") = lower (lit "keyVault") ∧
  get_category (lit "Az.KEYVAULT") = get_category (lit "Az.keyVault").
Proof.
  split; [vm_compute; reflexivity|].
  apply (get_category_case_insensitive (lit "KEYVAULT") (lit "keyVault")).
  vm_compute; reflexivity.
Defined.

(** X2. Every key of the table leads to its own category, in any case of
    its letters: no rule is hidden behind an earlier rule whose key occurs
    in it, because the exact pass comes first and the keys differ. *)
Theorem get_category_of_key (key cat s : str) :
  (key, cat) ∈ CATEGORY_MAP → lower s = lower key →
  get_category (lit "Az." ++ s) = cat.
Proof.
  intros Hin Hs. unfold get_category, get_category_with.
  rewrite removeprefix_app, (exact_pass_lower s key) by done.
  assert (Forall (λ rule, exact_pass rule.1 CATEGORY_MAP = Some rule.2)
            CATEGORY_MAP) as Hall.
  { apply (bool_decide_unpack _). vm_compute. reflexivity. }
  rewrite Forall_forall in Hall. specialize (Hall _ Hin).
  change (exact_pass key CATEGORY_MAP = Some cat) in Hall. by rewrite Hall.
Qed.

Lemma get_category_of_key_witness :
  get_category (lit "Az.containerregistry") = lit "Containers".
Proof.
  apply (get_category_of_key (lit "ContainerRegistry")).
  - apply list_elem_of_In. vm_compute. tauto.
  - vm_compute; reflexivity.
Defined.

(** X3. The category is [Other] or a category of the table. *)
Theorem get_category_range (module_name : str) :
  get_category module_name = lit "Other" ∨
  ∃ key, (key, get_category module_name) ∈ CATEGORY_MAP.
Proof.
  unfold get_category, get_category_with.
  set (suffix := removeprefix (lit "Az.") module_name).
  pose proof (exact_pass_spec suffix CATEGORY_MAP) as He.
  pose proof (partial_pass_spec suffix CATEGORY_MAP) as Hp.
  destruct (exact_pass suffix CATEGORY_MAP) as [c|].
  - right. destruct He as (i & [key cat] & (Hi & _) & <-). exists key.
    by eapply list_elem_of_lookup_2.
  - destruct (partial_pass suffix CATEGORY_MAP) as [c|]; [|by left].
    right. destruct Hp as (i & [key cat] & (Hi & _) & <-). exists key.
    by eapply list_elem_of_lookup_2.
Qed.

(** ** The front-matter parser, further *)

Lemma field_of_line_parts (line k v : str) (P : ascii → Prop) :
  field_of_line line k v → Forall P line → Forall P k ∧ Forall P v.
Proof.
  intros (kraw & vraw & -> & _ & -> & ->) H.
  apply Forall_app in H as [Hk H]. apply Forall_cons in H as [_ Hv].
  split; [by apply Forall_strip_by | by do 2 apply Forall_strip_by].
Qed.

(** X4. In the mapping that [parse_front_matter] returns, a key holds no
    colon and no line boundary and has no white space at its ends; a value
    holds no line boundary and has no quote character at its ends. *)
Theorem parse_front_matter_entries (text k v : str) :
  parse_front_matter text !! k = Some v →
  (COLON ∉ k) ∧ strip k = k ∧ strip_by is_quote v = v ∧
  Forall (λ c, is_linebreak c = false) (k ++ v).
Proof.
  unfold parse_front_matter. destruct (fm_match text) as [block|]; [|done].
  intros (i & line & Hi & Hf & _)%foldl_fm_line_lookup.
  assert (Forall (λ c, is_linebreak c = false) line) as Hline.
  { pose proof (splitlines_go_no_break false [] block (Forall_nil_2 _)) as H.
    rewrite Forall_forall in H. apply H. by eapply list_elem_of_lookup_2. }
  destruct (field_of_line_parts line k v _ Hf Hline) as [Hk Hv].
  destruct Hf as (kraw & vraw & -> & Hcolon & -> & ->).
  split; [|split; [|split]].
  - intros Hin. apply Hcolon.
    destruct (strip_by_split is_space kraw) as (pre & post & Hs & _).
    rewrite Hs. rewrite !elem_of_app. auto.
  - apply strip_by_idemp.
  - apply strip_by_idemp.
  - by apply Forall_app.
Qed.

Lemma parse_front_matter_entries_witness :
  parse_front_matter (text_of ["---"; " title :  'Get-AzFoo' "; "---"])
    !! lit "title" = Some (lit "Get-AzFoo") ∧
  strip (lit "title") = lit "title".
Proof.
  split; [vm_compute; reflexivity|].
  eapply (parse_front_matter_entries
            (text_of ["---"; " title :  'Get-AzFoo' "; "---"])).
  vm_compute; reflexivity.
Defined.

Lemma fm_body_line (line rest : str) :
  LF ∉ line →
  fm_body (line ++ LF :: lit "---" ++ rest) = Some (line ++ [LF]).
Proof.
  induction line as [|c line IH]; intros Hlf; cbn [app fm_body].
  - by rewrite bool_decide_eq_true_2, starts_with_app by done.
  - rewrite bool_decide_eq_false_2; [|intros ->; apply Hlf; by left].
    cbn [andb]. rewrite IH; [done|]. intros ?. apply Hlf. by right.
Qed.

Lemma fm_open_nonspace (c : ascii) (s : str) :
  is_space c = false → fm_open (c :: s) = None.
Proof.
  intros Hc. cbn [fm_open]. rewrite Hc.
  rewrite bool_decide_eq_false_2; [done|]. intros ->. done.
Qed.

Lemma strip_by_wrap (f : ascii → bool) (c : ascii) (v : str) :
  f c = true → strip_by f v = v → strip_by f (c :: v ++ [c]) = v.
Proof.
  intros Hc [Hhd Hlast]%strip_by_fixed. unfold strip_by.
  cbn [lstrip_by]. rewrite Hc. destruct v as [|d v].
  - simpl. by rewrite Hc.
  - rewrite (lstrip_by_id f ((d :: v) ++ [c])) by done.
    unfold rstrip_by. rewrite reverse_app. simpl. rewrite Hc.
    rewrite lstrip_by_id by done. apply reverse_involutive.
Qed.

Lemma strip_space_quoted (q : ascii) (v : str) :
  is_space q = false → strip (lit " " ++ q :: v ++ [q]) = q :: v ++ [q].
Proof.
  intros Hq. unfold strip, strip_by.
  change (lit " " ++ ?x) with (" "%char :: x). cbn [lstrip_by].
  change (is_space " ") with true. cbv iota. rewrite Hq.
  apply rstrip_by_id. rewrite reverse_cons, reverse_app. simpl. done.
Qed.

(** X5. A round trip: front matter that consists of one line [k: v], or
    [k: 'v'] with the value between two quote characters of the same kind,
    is read back as the mapping of [k] to [v], whatever follows the closing
    [---].  The key must be free of colons and line boundaries, the value
    free of line boundaries, and both without white space (and, for the
    value, quote characters) at their ends. *)
Theorem parse_front_matter_round_trip (k v q rest : str) :
  COLON ∉ k → strip k = k → strip v = v → strip_by is_quote v = v →
  Forall (λ c, is_linebreak c = false) (k ++ v) →
  q = [] ∨ q = [DQUOTE] ∨ q = [SQUOTE] →
  parse_front_matter
    (lit "---" ++ [LF] ++ k ++ lit ": " ++ q ++ v ++ q ++ [LF] ++ lit "---" ++ rest)
  = {[ k := v ]}.
Proof.
  intros Hcolon Hk Hv Hvq Hbreak Hq.
  set (line := k ++ lit ": " ++ q ++ v ++ q).
  assert (Forall (λ c, is_linebreak c = false) line) as Hline.
  { apply Forall_app in Hbreak as [Hbk Hbv]. unfold line.
    rewrite !Forall_app. repeat split; try done.
    - by repeat constructor.
    - destruct Hq as [->|[->| ->]]; by repeat constructor.
    - destruct Hq as [->|[->| ->]]; by repeat constructor. }
  assert (LF ∉ line) as Hlf.
  { intros Hin. rewrite Forall_forall in Hline. by specialize (Hline _ Hin). }
  assert (fm_match (lit "---" ++ [LF] ++ line ++ [LF] ++ lit "---" ++ rest)
          = Some (line ++ [LF])) as Hmatch.
  { unfold fm_match. rewrite starts_with_app.
    change (drop 3 (lit "---" ++ ?x)) with x. cbn [app fm_open].
    change (is_space LF) with true. cbv iota.
    assert (fm_open (line ++ LF :: lit "---" ++ rest) = None) as ->.
    { unfold line. apply strip_by_fixed in Hk as [Hk _].
      destruct k as [|c k]; [by apply fm_open_nonspace|].
      by apply fm_open_nonspace. }
    rewrite bool_decide_eq_true_2 by done. by apply fm_body_line. }
  unfold parse_front_matter.
  replace (lit "---" ++ [LF] ++ k ++ lit ": " ++ q ++ v ++ q ++ [LF] ++ lit "---" ++ rest)
    with (lit "---" ++ [LF] ++ line ++ [LF] ++ lit "---" ++ rest)
    by (unfold line; by rewrite <- !app_assoc).
  rewrite Hmatch, splitlines_one_line by done. cbn [foldl]. unfold fm_line.
  assert (split_first COLON line = Some (k, lit " " ++ q ++ v ++ q)) as ->.
  { apply split_first_spec. done. }
  rewrite Hk. f_equal.
  destruct Hq as [->|[->| ->]].
  - rewrite app_nil_r. cbn [app].
    change (strip (lit " " ++ v)) with (strip v). by rewrite Hv, Hvq.
  - cbn [app]. rewrite (strip_space_quoted DQUOTE v) by done.
    by rewrite strip_by_wrap.
  - cbn [app]. rewrite (strip_space_quoted SQUOTE v) by done.
    by rewrite strip_by_wrap.
Qed.

Lemma parse_front_matter_round_trip_witness :
  parse_front_matter
    (lit "---" ++ [LF] ++ lit "Module Name" ++ lit ": " ++ [DQUOTE] ++ lit "Az.Foo"
       ++ [DQUOTE] ++ [LF] ++ lit "---" ++ lit " and more")
  = {[ lit "Module Name" := lit "Az.Foo" ]}.
Proof.
  apply (parse_front_matter_round_trip (lit "Module Name") (lit "Az.Foo")
           [DQUOTE] (lit " and more")).
  - apply (bool_decide_unpack _). vm_compute; reflexivity.
  - vm_compute; reflexivity.
  - vm_compute; reflexivity.
  - vm_compute; reflexivity.
  - apply (bool_decide_unpack _). vm_compute; reflexivity.
  - right. left. reflexivity.
Defined.

(** ** The section extractor, further *)

Lemma sec_search_absent (section_name s : str) :
  contains (lower (lit "## " ++ section_name)) (lower s) = false →
  sec_search section_name s = None.
Proof.
  induction s as [|c s IH]; intros H; cbn [sec_search].
  - unfold sec_match_at. rewrite starts_with_ci_lower. reflexivity.
  - cbn [lower map contains] in H. apply orb_false_iff in H as [H1 H2].
    unfold sec_match_at. rewrite starts_with_ci_lower.
    cbn [lower map]. rewrite H1. by apply IH.
Qed.

(** X6. When the text does not hold the heading [## name] anywhere, case
    apart, [extract_section] returns the empty string. *)
Theorem extract_section_absent (text section_name : str) :
  contains (lower (lit "## " ++ section_name)) (lower text) = false →
  extract_section text section_name = [].
Proof.
  intros H. unfold extract_section. by rewrite sec_search_absent.
Qed.

Lemma extract_section_absent_witness :
  extract_section (text_of ["# Get-AzFoo"; "#SYNOPSIS"; "text"]) (lit "SYNOPSIS") = [].
Proof.
  apply extract_section_absent. vm_compute; reflexivity.
Defined.

Lemma sec_body_until (body tail : str) :
  (∀ k, k < length body →
        starts_with (LF :: lit "## ") (drop k (body ++ tail)) = false) →
  tail = [] ∨ starts_with (LF :: lit "## ") tail = true →
  sec_body (body ++ tail) = body.
Proof.
  intros Hno Htail. induction body as [|c body IH]; cbn [app].
  - destruct Htail as [->|Ht]; [done|]. destruct tail; [done|].
    cbn [sec_body]. by rewrite Ht.
  - cbn [sec_body]. pose proof (Hno 0 ltac:(simpl; lia)) as H0.
    cbn [drop app] in H0. rewrite H0. f_equal. apply IH.
    intros k Hk. apply (Hno (S k)). simpl. lia.
Qed.

(** X7. A section with text: when the heading [## name], in any case of its
    letters, is followed by an LF and a body that starts with a character
    that is not white space, when no LF followed by [## ] starts in the
    body, and the body runs to the end of the text or to an LF followed by
    [## ], and when the heading occurs at no earlier position, the result is
    the body, trimmed. *)
Theorem extract_section_body (pre heading body tail section_name : str) :
  lower heading = lower (lit "## " ++ section_name) →
  (∀ k, k < length pre →
        starts_with_ci (lit "## " ++ section_name)
          (drop k (pre ++ heading ++ LF :: body ++ tail)) = false) →
  match body with [] => False | c :: _ => is_space c = false end →
  (∀ k, k < length body →
        starts_with (LF :: lit "## ") (drop k (body ++ tail)) = false) →
  tail = [] ∨ starts_with (LF :: lit "## ") tail = true →
  extract_section (pre ++ heading ++ LF :: body ++ tail) section_name = strip body.
Proof.
  intros Hhead Hpre Hbody Hno Htail. unfold extract_section.
  assert (sec_match_at section_name (heading ++ LF :: body ++ tail) = Some body)
    as Hmatch.
  { unfold sec_match_at.
    assert (length heading = length (lit "## " ++ section_name)) as Hlen.
    { apply (f_equal length) in Hhead. unfold lower in Hhead.
      by rewrite !length_map in Hhead. }
    rewrite starts_with_ci_lower, (lower_app heading), Hhead, starts_with_app.
    rewrite <- Hlen, drop_app_length. cbn [sec_open].
    change (is_space LF) with true. cbv iota.
    destruct body as [|c body]; [done|]. cbn [app sec_open]. rewrite Hbody.
    rewrite bool_decide_eq_false_2 by (intros ->; done).
    rewrite bool_decide_eq_true_2 by done. f_equal.
    by apply (sec_body_until (c :: body) tail). }
  assert (sec_search section_name (pre ++ heading ++ LF :: body ++ tail) = Some body)
    as ->; [|done].
  clear Hbody Hno Htail Hhead. induction pre as [|c pre IH].
  - cbn [app]. destruct (heading ++ LF :: body ++ tail) eqn:E;
      cbn [sec_search]; by rewrite Hmatch.
  - cbn [app sec_search]. unfold sec_match_at at 1.
    pose proof (Hpre 0 ltac:(simpl; lia)) as H0. cbn [drop app] in H0.
    rewrite H0. apply IH.
    intros k Hk. apply (Hpre (S k)). simpl. lia.
Qed.

Lemma extract_section_body_witness :
  extract_section
    ([] ++ lit "## Synopsis" ++ LF :: lit "A foo. " ++ LF :: lit "## SYNTAX")
    (lit "SYNOPSIS")
  = lit "A foo.".
Proof.
  apply (extract_section_body [] (lit "## Synopsis") (lit "A foo. ")
           (LF :: lit "## SYNTAX") (lit "SYNOPSIS")).
  - vm_compute; reflexivity.
  - intros k Hk. simpl in Hk. lia.
  - vm_compute; reflexivity.
  - intros k Hk.
    do 7 (destruct k as [|k]; [vm_compute; reflexivity|]).
    vm_compute in Hk. lia.
  - right. vm_compute; reflexivity.
Defined.

(** X8. What the extractors return is trimmed: the text of a section, and
    each code block, has no white space at its ends. *)
Theorem extractors_return_trimmed (text section_name : str) (max_blocks : nat) :
  strip (extract_section text section_name) = extract_section text section_name ∧
  Forall (λ code, strip code = code) (extract_code_blocks text max_blocks).
Proof.
  split.
  - unfold extract_section. destruct (sec_search section_name text); [|done].
    apply strip_by_idemp.
  - unfold extract_code_blocks. rewrite clean_loop_spec. cbn [app].
    apply Forall_forall. intros code [_ Hc]%list_elem_of_filter.
    apply list_elem_of_fmap in Hc as (b & -> & _). apply strip_by_idemp.
Qed.

(** ** The code-block extractor, further *)

Lemma cb_findall_no_fence (s : str) :
  contains FENCE s = false → cb_findall 0 s = [].
Proof.
  induction s as [|c s IH]; intros H; [done|]. cbn [cb_findall].
  cbn [contains] in H. apply orb_false_iff in H as [H1 H2].
  unfold cb_match_at. rewrite H1. by apply IH.
Qed.

(** X9. A text without three backquotes in a row has no code block. *)
Theorem extract_code_blocks_no_fence (section_text : str) (max_blocks : nat) :
  contains FENCE section_text = false →
  extract_code_blocks section_text max_blocks = [].
Proof.
  intros H. unfold extract_code_blocks.
  by rewrite cb_findall_no_fence, take_nil.
Qed.

Lemma extract_code_blocks_no_fence_witness :
  extract_code_blocks (text_of ["Get-AzFoo -Name x"; "``not a fence``"]) 3 = [].
Proof.
  apply extract_code_blocks_no_fence. vm_compute; reflexivity.
Defined.

(** X10. A greater bound only adds blocks at the end: the result for
    [max_blocks] is a prefix of the result for a greater bound. *)
Theorem extract_code_blocks_monotone (section_text : str) (max_blocks more : nat) :
  extract_code_blocks section_text max_blocks
    `prefix_of` extract_code_blocks section_text (max_blocks + more).
Proof.
  unfold extract_code_blocks. rewrite !clean_loop_spec. cbn [app].
  rewrite <- (take_take_drop _ max_blocks more), fmap_app, filter_app.
  by eexists.
Qed.

(** ** The document classifier, further *)

Lemma link_match_at_label (P : ascii → Prop) (s label : str) (n : nat) :
  link_match_at s = Some (label, n) → Forall P s → Forall P label.
Proof.
  unfold link_match_at. destruct s as [|c s1]; [done|].
  case_bool_decide; [|done].
  destruct (span_by _ s1) as [l r1] eqn:E1.
  apply span_by_spec in E1 as (Hs1 & _ & _).
  destruct (nonempty l && starts_with (lit "](") r1); [|done].
  destruct (span_by _ (drop 2 r1)) as [url r2].
  destruct (nonempty url && starts_with (lit ")") r2); [|done].
  intros [= <- <-] Hall. apply Forall_cons in Hall as [_ Hall].
  rewrite Hs1 in Hall. by apply Forall_app in Hall as [Hall _].
Qed.

Lemma Forall_sub_links (P : ascii → Prop) (skip : nat) (s : str) :
  Forall P s → Forall P (sub_links skip s).
Proof.
  revert skip. induction s as [|c s IH]; intros skip H; [done|].
  cbn [sub_links]. destruct skip as [|k].
  - destruct (link_match_at (c :: s)) as [[label n]|] eqn:E.
    + apply Forall_app. split; [by eapply link_match_at_label|].
      apply IH. by apply Forall_cons in H as [_ H].
    + apply Forall_cons in H as [Hc H]. constructor; [done | by apply IH].
  - apply IH. by apply Forall_cons in H as [_ H].
Qed.

Lemma description_of_clean (text : str) :
  strip (description_of text) = description_of text ∧
  Forall (λ c, is_linebreak c = false ∧ is_markup c = false) (description_of text).
Proof.
  split; [apply strip_by_idemp|]. unfold description_of.
  set (sec := extract_section text (lit "SYNOPSIS")).
  set (first := match sec with [] => [] | _ :: _ => strip (hd [] (splitlines sec)) end).
  assert (Forall (λ c, is_linebreak c = false) first) as Hfirst.
  { unfold first. destruct sec as [|c sec]; [constructor|].
    apply Forall_strip_by.
    pose proof (splitlines_go_no_break false [] (c :: sec) (Forall_nil_2 _)) as H.
    fold (splitlines (c :: sec)) in H.
    destruct (splitlines (c :: sec)) as [|l ls]; [constructor|].
    by apply Forall_cons in H as [H _]. }
  apply Forall_strip_by, Forall_forall.
  intros c [Hm Hc]%list_elem_of_filter. split; [|done].
  pose proof (Forall_sub_links _ 0 first Hfirst) as H.
  rewrite Forall_forall in H. by apply H.
Qed.

Lemma parse_cmdlet_text_fields (parent file_name text : str) (doc : CommandDoc) :
  parse_cmdlet_text parent file_name text = Some doc →
  description doc = description_of text ∧
  syntax doc = hd [] (extract_code_blocks (extract_section text (lit "SYNTAX")) 1) ∧
  examples doc = extract_code_blocks (extract_section text (lit "EXAMPLES")) 3.
Proof.
  unfold parse_cmdlet_text.
  destruct (is_module_index _); [done|].
  destruct (negb (is_cmdlet_name _)); [done|].
  destruct (negb (nonempty _) || negb (starts_with _ _)); [done|].
  by intros [= <-].
Qed.

(** X11. The description of an accepted document is one line: it holds no
    line boundary and none of the characters star, underscore and backquote,
    and has no white space at its ends. *)
Theorem parse_cmdlet_doc_description (parent : str) (file : node) (doc : CommandDoc) :
  parse_cmdlet_doc parent file = inr (Some doc) →
  strip (description doc) = description doc ∧
  Forall (λ c, is_linebreak c = false ∧ is_markup c = false) (description doc).
Proof.
  destruct file as [file_name text|]; [|done]. intros [= H].
  apply parse_cmdlet_text_fields in H as (-> & _). apply description_of_clean.
Qed.

Lemma parse_cmdlet_doc_description_witness :
  Forall (λ c, is_linebreak c = false ∧ is_markup c = false) (lit "Gets a bar.").
Proof.
  refine (proj2 (parse_cmdlet_doc_description (lit "Az.Foo")
    (File (lit "Get-AzBar.md") (ex_doc [] ["## SYNOPSIS"; "Gets a *bar*."; ""]))
    {| name := lit "Get-AzBar"; module := lit "Az.Foo";
       description := lit "Gets a bar.";
       syntax := lit "Get-AzFoo [-Name] <String>";
       examples := [lit "Get-AzFoo -Name x"] |} _)).
  vm_compute; reflexivity.
Defined.





Lemma rfind_dot_app (a b : str) (i : nat) :
  rfind_dot b = Some i → rfind_dot (a ++ b) = Some (length a + i).
Proof.
  intros Hb. induction a as [|c a IH]; cbn [app rfind_dot length]; [done|].
  by rewrite IH.
Qed.

Lemma stem_md (base : str) : base ≠ [] → stem (base ++ lit ".md") = base.
Proof.
  intros Hne. unfold stem.
  rewrite (rfind_dot_app base (lit ".md") 0) by reflexivity.
  rewrite Nat.add_0_r, length_app.
  assert ((0 <? length base) && (length base <? length base + length (lit ".md") - 1)
          = true) as ->.
  { change (length (lit ".md")) with 3. destruct base; [done|].
    apply andb_true_iff. split; [done|]. apply Nat.ltb_lt. simpl. lia. }
  by rewrite take_app_length.
Qed.

Lemma cmdlet_name_not_index (base verb : str) :
  cmdlet_name base verb → is_module_index base = false.
Proof.
  intros (u & word & rest & Hu & Hne & Hlow & -> & ->).
  destruct (is_module_index _) eqn:E; [|done]. exfalso.
  unfold is_module_index in E. apply andb_true_iff in E as [E _].
  apply starts_with_spec in E as [r E].
  destruct word as [|w0 word]; [done|]. apply Forall_cons in Hlow as [_ Hlow].
  injection E as _ _ E. destruct word as [|w1 word].
  - by injection E.
  - injection E as -> _. by apply Forall_cons in Hlow as [Hw1 _].
Qed.

(** X13. A file [Verb-AzNoun.md] without front matter, in a directory whose
    name starts with [Az.], is accepted: the document gets the base name of
    the file as its name and the name of the directory as its module. *)
Theorem parse_cmdlet_doc_by_file_name (parent base verb text : str) :
  cmdlet_name base verb →
  lit "Az." `prefix_of` parent →
  starts_with (lit "---") text = false →
  ∃ doc,
    parse_cmdlet_doc parent (File (base ++ lit ".md") text) = inr (Some doc) ∧
    name doc = base ∧ module doc = parent.
Proof.
  intros Hname Hparent Htext. cbn [parse_cmdlet_doc]. unfold parse_cmdlet_text.
  assert (base ≠ []) as Hne.
  { destruct Hname as (u & word & rest & _ & _ & _ & -> & ->). done. }
  assert (parse_front_matter text = ∅) as ->.
  { unfold parse_front_matter, fm_match. by rewrite Htext. }
  rewrite stem_md, (cmdlet_name_not_index base verb), !lookup_empty by done.
  assert (is_cmdlet_name base = true) as ->.
  { apply is_cmdlet_name_spec. eauto. }
  apply starts_with_spec in Hparent as Hp. cbn [negb default nonempty andb].
  rewrite Hp. destruct parent as [|c parent]; [done|].
  cbn [nonempty negb orb]. rewrite Hp. cbn [negb]. by eexists.
Qed.

Lemma parse_cmdlet_doc_by_file_name_witness :
  ∃ doc,
    parse_cmdlet_doc (lit "Az.Compute")
      (File (lit "New-AzVM" ++ lit ".md") (lit "# New-AzVM")) = inr (Some doc) ∧
    name doc = lit "New-AzVM" ∧ module doc = lit "Az.Compute".
Proof.
  apply (parse_cmdlet_doc_by_file_name (lit "Az.Compute") (lit "New-AzVM")
           (lit "New")).
  - exists "N"%char, (lit "ew"), (lit "VM"). repeat split; try done.
    apply (bool_decide_unpack _). vm_compute; reflexivity.
  - by exists (lit "Compute").
  - vm_compute; reflexivity.
Defined.

(** ** The version resolver, further *)

Lemma lex_le_lt_trans (a b c : list N) : lex_le a b → lex_lt b c → lex_lt a c.
Proof. intros [->|H] ?; [done | by eapply lex_lt_trans]. Qed.

(** [max_by] returns the first of the items with the greatest key. *)
Lemma max_by_first {A} (key : A → list N) (best : A) (rest : list A) :
  ∃ i, (best :: rest) !! i = Some (max_by key best rest) ∧
       ∀ j x, j < i → (best :: rest) !! j = Some x →
              lex_lt (key x) (key (max_by key best rest)).
Proof.
  revert best. induction rest as [|y rest IH]; intros best; cbn [max_by].
  - exists 0. split; [done|]. intros j x Hj. lia.
  - destruct (IH (if tuple_lt (key best) (key y) then y else best))
      as (i & Hi & Hlt).
    set (m := max_by key (if tuple_lt (key best) (key y) then y else best) rest) in *.
    destruct (tuple_lt (key best) (key y)) eqn:E.
    + apply tuple_lt_spec in E. exists (S i). split; [done|].
      intros [|j] x Hj Hx.
      * injection Hx as <-. destruct i as [|i].
        -- injection Hi as <-. done.
        -- eapply lex_lt_trans; [exact E|]. apply (Hlt 0); [lia | done].
      * apply (Hlt j); [lia | done].
    + apply not_tuple_lt_le in E. destruct i as [|i].
      * exists 0. split; [done|]. intros j x Hj. lia.
      * exists (S (S i)). split; [done|]. intros [|[|j]] x Hj Hx.
        -- apply (Hlt 0); [lia | done].
        -- injection Hx as <-. eapply lex_le_lt_trans; [exact E|].
           apply (Hlt 0); [lia | done].
        -- apply (Hlt (S j)); [lia | done].
Qed.

(** X14. Of several candidates with the greatest version,
    [find_latest_azps_dir] returns the first in the order of the listing:
    every candidate listed before the result has a smaller tuple. *)
Theorem find_latest_azps_dir_first (root_name : str) (cs : list node) (d : node) :
  find_latest_azps_dir (Dir root_name cs) = inr d →
  ∃ i, candidate_list cs !! i = Some d ∧
       ∀ j c, j < i → candidate_list cs !! j = Some c →
              lex_lt (ver_key c) (ver_key d).
Proof.
  assert (find_latest_azps_dir (Dir root_name cs) =
          match candidate_list cs with
          | [] => inl FileNotFoundError
          | c :: rest => inr (max_by ver_key c rest)
          end) as ->.
  { unfold find_latest_azps_dir, candidate_list.
    by destruct (filter (λ d, is_azps d = true) cs). }
  destruct (candidate_list cs) as [|c rest]; [done|].
  intros [= <-]. apply max_by_first.
Qed.

Lemma find_latest_azps_dir_first_witness :
  ∃ i, candidate_list [Dir (lit "azps-1.0") []; Dir (lit "azps-2.0") [];
                       Dir (lit "azps-02.0") [File (lit "x") []]] !! i
       = Some (Dir (lit "azps-2.0") []) ∧
       ∀ j c, j < i →
         candidate_list [Dir (lit "azps-1.0") []; Dir (lit "azps-2.0") [];
                         Dir (lit "azps-02.0") [File (lit "x") []]] !! j = Some c →
         lex_lt (ver_key c) (ver_key (Dir (lit "azps-2.0") [])).
Proof.
  apply (find_latest_azps_dir_first (lit "docs")). vm_compute; reflexivity.
Defined.

Lemma digit_runs_digits (cur ds s : str) :
  Forall (λ c, is_digit c = true) ds →
  digit_runs cur (ds ++ s) = digit_runs (cur ++ ds) s.
Proof.
  revert cur. induction ds as [|c ds IH]; intros cur H; cbn [app].
  - by rewrite app_nil_r.
  - apply Forall_cons in H as [Hc H]. cbn [digit_runs]. rewrite Hc, IH by done.
    by rewrite <- app_assoc.
Qed.

(** X15. The key of a directory [azps-a.b.c], where [a], [b] and [c] are
    runs of digits, is the tuple of the three numbers; what the directory
    holds does not count. *)
Theorem ver_key_dotted (a b c : str) (cs : list node) :
  a ≠ [] → b ≠ [] → c ≠ [] →
  Forall (λ x, is_digit x = true) (a ++ b ++ c) →
  ver_key (Dir (lit "azps-" ++ a ++ lit "." ++ b ++ lit "." ++ c) cs)
  = [int_of_digits a; int_of_digits b; int_of_digits c].
Proof.
  intros Ha Hb Hc H. apply Forall_app in H as [Hda H].
  apply Forall_app in H as [Hdb Hdc]. unfold ver_key. cbn [node_name].
  change (digit_runs [] (lit "azps-" ++ ?x)) with (digit_runs [] x).
  rewrite digit_runs_digits by done. cbn [app].
  change (digit_runs a (lit "." ++ ?x)) with
    (match a with [] => digit_runs [] x | _ => a :: digit_runs [] x end).
  destruct a as [|a0 a]; [done|].
  rewrite digit_runs_digits by done. cbn [app].
  change (digit_runs b (lit "." ++ ?x)) with
    (match b with [] => digit_runs [] x | _ => b :: digit_runs [] x end).
  destruct b as [|b0 b]; [done|].
  rewrite <- (app_nil_r c), digit_runs_digits by done.
  cbn [app digit_runs]. rewrite app_nil_r. by destruct c.
Qed.

Lemma ver_key_dotted_witness :
  ver_key (Dir (lit "azps-" ++ lit "1" ++ lit "." ++ lit "10" ++ lit "." ++ lit "007") [])
  = [1%N; 10%N; 7%N].
Proof.
  apply (ver_key_dotted (lit "1") (lit "10") (lit "007") []); try done.
  apply (bool_decide_unpack _). vm_compute; reflexivity.
Defined.

(** ** The aggregator, further *)

Lemma version_loop_first_gen (files : list node) (m0 mvm : gmap str str)
    (mn mv : str) :
  version_loop files m0 = inr mvm →
  mvm !! mn = Some mv ↔
  m0 !! mn = Some mv ∨
  (m0 !! mn = None ∧
   ∃ i f, files !! i = Some f ∧ declares f mn mv ∧
          ∀ j f' mv', j < i → files !! j = Some f' → ¬ declares f' mn mv').
Proof.
  revert m0. induction files as [|f files IH]; intros m0; cbn [version_loop].
  - intros [= <-]. split; [by left|]. intros [H|[_ (i & f & Hi & _)]]; [done|].
    by rewrite lookup_nil in Hi.
  - destruct f as [nm text|nm cs]; [|discriminate]. intros H.
    rewrite (IH _ H). clear IH H.
    set (fm := parse_front_matter text).
    assert (∀ mn' mv', declares (File nm text) mn' mv' ↔
              fm !! lit "Module Name" = Some mn' ∧
              fm !! lit "Module Version" = Some mv') as Hdecl.
    { intros mn' mv'. unfold declares. split.
      - intros (nm' & text' & [= <- <-] & H1 & H2). done.
      - intros [H1 H2]. by exists nm, text. }
    assert (∀ (P : nat → node → Prop),
              (∃ i f, (File nm text :: files) !! i = Some f ∧ P i f) ↔
              P 0 (File nm text) ∨ ∃ i f, files !! i = Some f ∧ P (S i) f) as Hex.
    { intros P. split.
      - intros ([|i] & f & Hi & HP); [injection Hi as <-; by left|]. right. eauto.
      - intros [HP|(i & f & Hi & HP)]; [by exists 0, (File nm text)|].
        by exists (S i), f. }
    destruct (fm !! lit "Module Version") as [mv0|] eqn:Hmv;
      destruct (fm !! lit "Module Name") as [mn0|] eqn:Hmn.
    2,3,4: split;
      [ intros [H|[H0 (i & f & Hi & Hd & Hfirst)]]; [by left|]; right;
        split; [done|]; exists (S i), f; split; [done|]; split; [done|];
        intros [|j] f' mv' Hj Hf';
        [ injection Hf' as <-; rewrite Hdecl; intros [? ?]; congruence
        | apply (Hfirst j); [lia | done] ]
      | intros [H|[H0 ([|i] & f & Hi & Hd & Hfirst)]]; [by left| |];
        [ injection Hi as <-; apply Hdecl in Hd as [? ?]; congruence
        | right; split; [done|]; exists i, f; split; [done|]; split; [done|];
          intros j f' mv' Hj Hf'; apply (Hfirst (S j)); [lia | done] ] ].
    destruct (m0 !! mn0) as [old|] eqn:Hold.
    + split.
      * intros [H|[H0 (i & f & Hi & Hd & Hfirst)]]; [by left|]. right.
        split; [done|]. exists (S i), f. split; [done|]. split; [done|].
        intros [|j] f' mv' Hj Hf'; [|apply (Hfirst j); [lia | done]].
        injection Hf' as <-. rewrite Hdecl. intros [[= ->] _]. congruence.
      * intros [H|[H0 ([|i] & f & Hi & Hd & Hfirst)]]; [by left| |].
        -- injection Hi as <-. apply Hdecl in Hd as [[= ->] _]. congruence.
        -- right. split; [done|]. exists i, f. split; [done|]. split; [done|].
           intros j f' mv' Hj Hf'. apply (Hfirst (S j)); [lia | done].
    + destruct (decide (mn0 = mn)) as [->|Hne].
      * rewrite lookup_insert_eq. split.
        -- intros [[= ->]|[? _]]; [|done]. right. split; [done|].
           exists 0, (File nm text). split; [done|]. split; [by apply Hdecl|].
           intros j f' mv' Hj. lia.
        -- intros [H|[_ ([|i] & f & Hi & Hd & Hfirst)]]; [congruence| |].
           ++ injection Hi as <-. apply Hdecl in Hd as [_ [= ->]]. by left.
           ++ exfalso. apply (Hfirst 0 (File nm text) mv0); [lia|done|].
              by apply Hdecl.
      * rewrite lookup_insert_ne by done. split.
        -- intros [H|[H0 (i & f & Hi & Hd & Hfirst)]]; [by left|]. right.
           split; [done|]. exists (S i), f. split; [done|]. split; [done|].
           intros [|j] f' mv' Hj Hf'; [|apply (Hfirst j); [lia | done]].
           injection Hf' as <-. rewrite Hdecl. intros [[= ->] _]. congruence.
        -- intros [H|[H0 ([|i] & f & Hi & Hd & Hfirst)]]; [by left| |].
           ++ injection Hi as <-. apply Hdecl in Hd as [[= ->] _]. congruence.
           ++ right. split; [done|]. exists i, f. split; [done|]. split; [done|].
              intros j f' mv' Hj Hf'. apply (Hfirst (S j)); [lia | done].
Qed.

(** X16. The map of module versions keeps the first version seen: a module
    has the version that the first document, in the order of the scan, with
    both fields gives it, and later documents do not change it. *)
Theorem version_loop_first (files : list node) (mvm : gmap str str) (mn mv : str) :
  version_loop files ∅ = inr mvm →
  mvm !! mn = Some mv ↔
  ∃ i f, files !! i = Some f ∧ declares f mn mv ∧
         ∀ j f' mv', j < i → files !! j = Some f' → ¬ declares f' mn mv'.
Proof.
  intros H. rewrite (version_loop_first_gen files ∅ mvm mn mv H), lookup_empty.
  split; [intros [?|[_ ?]]; done | auto].
Qed.

Lemma version_loop_first_witness :
  ∃ i f,
    ex_version_files !! i = Some f ∧
    declares f (lit "Az.Foo") (lit "1.0") ∧
    ∀ j f' mv', j < i → ex_version_files !! j = Some f' →
                ¬ declares f' (lit "Az.Foo") mv'.
Proof.
  assert (version_loop ex_version_files ∅ =
          inr ({[ lit "Az.Foo" := lit "1.0" ]} : gmap str str)) as H.
  { vm_compute; reflexivity. }
  apply (proj1 (version_loop_first _ _ (lit "Az.Foo") (lit "1.0") H)).
  vm_compute; reflexivity.
Defined.

Lemma version_loop_dir (files : list node) (m0 : gmap str str) :
  (∃ d, d ∈ files ∧ is_dir d = true) →
  version_loop files m0 = inl IsADirectoryError.
Proof.
  revert m0. induction files as [|f files IH]; intros m0 (d & Hd & Hdir).
  - by apply not_elem_of_nil in Hd.
  - cbn [version_loop]. destruct f as [nm text|nm cs]; [|done].
    apply IH. apply elem_of_cons in Hd as [->|Hd]; [done|]. eauto.
Qed.

Lemma version_loop_files (files : list node) (m0 : gmap str str) :
  (∀ d, d ∈ files → is_dir d = false) → ∃ mvm, version_loop files m0 = inr mvm.
Proof.
  revert m0. induction files as [|f files IH]; intros m0 Hfiles.
  - by eexists.
  - cbn [version_loop]. destruct f as [nm text|nm cs].
    + apply IH. intros d Hd. apply Hfiles. by right.
    + specialize (Hfiles (Dir nm cs)). discriminate Hfiles. by left.
Qed.

Lemma cmdlet_loop_files (module_name category : str) (files : list node)
    (st : list ManifestEntry * gmap str str * gmap str CmdletData) :
  (∀ d, d ∈ files → is_dir d = false) →
  ∃ st', cmdlet_loop module_name category files st = inr st'.
Proof.
  revert st. induction files as [|f files IH]; intros st Hfiles.
  - by eexists.
  - cbn [cmdlet_loop]. destruct f as [nm text|nm cs].
    + cbn [parse_cmdlet_doc].
      destruct (parse_cmdlet_text module_name nm text);
        apply IH; intros d Hd; apply Hfiles; by right.
    + specialize (Hfiles (Dir nm cs)). discriminate Hfiles. by left.
Qed.

Lemma module_loop_files (mvm : gmap str str) (dirs : list node) (st : scan_state) :
  (∀ m f, m ∈ dirs → f ∈ glob_md m → is_dir f = false) →
  ∃ st', module_loop mvm dirs st = inr st'.
Proof.
  revert st. induction dirs as [|m dirs IH]; intros st Hfiles.
  - by eexists.
  - cbn [module_loop].
    assert (∀ st, ∃ st', module_loop mvm dirs st = inr st') as Hrest.
    { intros st0. apply IH. intros m' f Hm'. apply Hfiles. by right. }
    destruct (negb (is_dir m)); [apply Hrest|].
    destruct (negb (starts_with (lit "Az.") (node_name m))); [apply Hrest|].
    destruct (cmdlet_loop_files (node_name m) (get_category (node_name m))
                (sorted (glob_md m)) (manifest_entries st, descriptions st, ∅))
      as ([[es ds] cs] & ->).
    { intros d Hd. rewrite elem_of_sorted in Hd.
      apply (Hfiles m); [by left | done]. }
    apply Hrest.
Qed.

Lemma elem_of_below_child (nm : str) (cs : list node) (c : node) :
  c ∈ cs → c ∈ below (Dir nm cs) ∧ ∀ x, x ∈ below c → x ∈ below (Dir nm cs).
Proof.
  intros Hc. cbn [below]. split; [apply elem_of_app; by left|].
  intros x Hx. apply elem_of_app. right.
  induction cs as [|c0 cs IH]; [by apply not_elem_of_nil in Hc|].
  apply elem_of_app. apply elem_of_cons in Hc as [->|Hc]; [by left|].
  right. by apply IH.
Qed.

(** The documents of a module directory are among those of the first
    scan. *)
Lemma glob_md_rglob_md (azps_dir m f : node) :
  m ∈ entries azps_dir → f ∈ glob_md m → f ∈ rglob_md azps_dir.
Proof.
  intros Hm Hf. unfold glob_md in Hf. apply list_elem_of_filter in Hf as [Hmd Hf].
  unfold rglob_md. apply list_elem_of_filter. split; [done|].
  destruct azps_dir as [|nm cs]; [by apply not_elem_of_nil in Hm|].
  destruct m as [|nm' cs']; [by apply not_elem_of_nil in Hf|].
  cbn [entries] in *.
  apply (elem_of_below_child nm cs (Dir nm' cs') Hm).
  by destruct (elem_of_below_child nm' cs' f Hf).
Qed.

Lemma scan_cases (azps_dir : node) :
  ((∃ d, d ∈ rglob_md azps_dir ∧ is_dir d = true) →
     scan azps_dir = inl IsADirectoryError) ∧
  ((∀ d, d ∈ rglob_md azps_dir → is_dir d = false) →
     ∃ st, scan azps_dir = inr st).
Proof.
  unfold scan. split.
  - intros H. by rewrite version_loop_dir.
  - intros H. destruct (version_loop_files (rglob_md azps_dir) ∅ H) as [mvm ->].
    apply module_loop_files. intros m f Hm Hf. rewrite elem_of_sorted in Hm.
    apply H. by eapply glob_md_rglob_md.
Qed.

(** X17. Below the version directory, a directory whose name ends in [.md]
    is read like a document: the run then ends with [IsADirectoryError]
    before anything is written.  When there is none, the run ends
    normally: the scans raise no other error. *)
Theorem main_md_directory (argv : list str) (resolve : str → option node)
    (azps_dir : node) :
  resolved_run argv resolve azps_dir →
  ((∃ d, d ∈ rglob_md azps_dir ∧ is_dir d = true) →
     ∃ tr, main argv resolve = (Raised IsADirectoryError, tr) ∧ written tr = [])
  ∧ ((∀ d, d ∈ rglob_md azps_dir → is_dir d = false) →
     ∃ tr, main argv resolve = (Done, tr)).
Proof.
  intros (docs_root & root & Harg & Hroot & Hfind).
  destruct argv as [|a0 [|a1 argv]]; [done|done|]. injection Harg as ->.
  unfold main. rewrite Hroot, Hfind.
  destruct (scan_cases azps_dir) as [Herr Hok]. split.
  - intros H. rewrite (Herr H). by eexists.
  - intros H. destruct (Hok H) as [st ->]. by eexists.
Qed.

Lemma main_md_directory_witness :
  ∃ tr,
    main ex_argv
      (λ _, Some (Dir (lit "docs")
                    [Dir (lit "azps-1.0.0")
                       [Dir (lit "Az.Foo") [Dir (lit "notes.md") []]]]))
    = (Raised IsADirectoryError, tr) ∧ written tr = [].
Proof.
  apply (main_md_directory ex_argv _
           (Dir (lit "azps-1.0.0") [Dir (lit "Az.Foo") [Dir (lit "notes.md") []]])).
  - exists (lit "docs"). eexists. split; [reflexivity|]. split; [reflexivity|].
    vm_compute; reflexivity.
  - exists (Dir (lit "notes.md") []). split; [|reflexivity].
    apply list_elem_of_In. vm_compute. tauto.
Defined.

Lemma module_path_inj (k1 k2 : str) : module_path k1 = module_path k2 → k1 = k2.
Proof.
  unfold module_path. intros H. apply app_inv_head in H.
  by apply app_inv_tail in H.
Qed.

(** X18. A run writes no path twice: the manifest, the description index
    and the module files all have different paths, so no output of a run
    replaces another one. *)
Theorem main_writes_each_path_once (argv : list str) (resolve : str → option node) :
  NoDup (written (main argv resolve).2).*1.
Proof.
  unfold main.
  destruct argv as [|a0 [|docs_root argv]]; [by constructor..|].
  destruct (resolve docs_root) as [root|]; [|by constructor].
  destruct (find_latest_azps_dir root) as [e|azps_dir]; [by constructor|].
  destruct (scan azps_dir) as [e|st]; [by constructor|].
  cbn [snd app written]. rewrite written_write_all.
  rewrite !fmap_cons, <- list_fmap_compose. cbn [fst].
  assert (∀ k, MANIFEST_PATH ≠ module_path k ∧ DESCRIPTIONS_PATH ≠ module_path k)
    as Hpaths.
  { intros k. split; intros H; vm_compute in H; discriminate H. }
  apply NoDup_cons. split.
  { intros [H|H]%elem_of_cons; [discriminate H|].
    apply list_elem_of_fmap in H as (kv & H & _). by apply (Hpaths kv.1). }
  apply NoDup_cons. split.
  { intros H. apply list_elem_of_fmap in H as (kv & H & _).
    by apply (Hpaths kv.1). }
  assert (∀ l : list (str * ModuleBundle),
            (fst ∘ (λ kv : str * ModuleBundle, (module_path kv.1, ModuleJson kv.2)))
              <$> l = module_path <$> l.*1) as ->.
  { induction l as [|kv l IH]; [done|]. rewrite !fmap_cons. by rewrite IH. }
  apply NoDup_fmap_2_strong; [|apply NoDup_fst_items_by_key].
  intros k1 k2 _ _. apply module_path_inj.
Qed.

Lemma str_lt_irrefl (a : str) : str_lt a a = false.
Proof. induction a as [|x a IH]; simpl; [done|]. by rewrite N.ltb_irrefl. Qed.

Lemma StronglySorted_filter_nodes (R : node → node → Prop) (P : node → Prop)
    `{∀ x, Decision (P x)} (l : list node) :
  StronglySorted R l → StronglySorted R (filter P l).
Proof.
  induction 1 as [|x l Hl IH Hx]; [constructor|].
  destruct (decide (P x)).
  - rewrite filter_cons_True by done. constructor; [done|].
    apply Forall_forall. intros y [_ Hy]%list_elem_of_filter.
    rewrite Forall_forall in Hx. by apply Hx.
  - by rewrite filter_cons_False.
Qed.

Lemma accepted_of_sorted (dirs : list node) :
  StronglySorted (λ x y, str_lt (node_name y) (node_name x) = false) dirs →
  StronglySorted (λ a b : str, str_lt b a = false)
    ((accepted_of dirs).*1).
Proof.
  intros Hs. unfold accepted_of.
  pose proof (StronglySorted_filter_nodes _
    (λ d, is_dir d = true ∧ starts_with (lit "Az.") (node_name d) = true) dirs Hs)
    as Hf.
  induction Hf as [|d ds Hds IH Hd]; [constructor|].
  rewrite bind_cons, fmap_app. apply StronglySorted_app. split; [|split; [|done]].
  - intros x1 x2 Hx1 Hx2.
    apply list_elem_of_fmap in Hx1 as (a1 & -> & Ha1).
    apply list_elem_of_fmap in Ha1 as (doc & -> & _). cbn [fst].
    apply list_elem_of_fmap in Hx2 as (a2 & -> & Ha2).
    apply list_elem_of_bind in Ha2 as (d' & Ha2 & Hd').
    apply list_elem_of_fmap in Ha2 as (doc' & -> & _). cbn [fst].
    rewrite Forall_forall in Hd. by apply Hd.
  - induction (accepted_in d) as [|doc docs IHd]; [constructor|].
    rewrite !fmap_cons. constructor; [done|]. cbn [fst].
    apply Forall_forall. intros x Hx.
    apply list_elem_of_fmap in Hx as (a & -> & Ha).
    apply list_elem_of_fmap in Ha as (doc' & -> & _). apply str_lt_irrefl.
Qed.

(** X19. The entries of the manifest come module by module, in the
    ascending order of the names of the module directories: no entry is
    followed by an entry of a module with a smaller name. *)
Theorem manifest_modules_ascending (argv : list str) (resolve : str → option node)
    (tr : list event) (path version : str) (manifest : list ManifestEntry) :
  main argv resolve = (Done, tr) →
  (path, ManifestJson version manifest) ∈ written tr →
  StronglySorted (λ a b : str, str_lt b a = false) (entry_m <$> manifest).
Proof.
  intros (azps_dir & st & _ & Hscan & ->)%main_Done.
  intros [H|[H|H]%elem_of_cons]%elem_of_cons.
  - injection H as _ _ ->.
    apply scan_inr in Hscan as (mvm & _ & -> & _).
    rewrite <- list_fmap_compose.
    pose proof (accepted_of_sorted _ (sorted_ordered (entries azps_dir))) as Hs.
    by fold (accepted azps_dir) in Hs.
  - done.
  - apply list_elem_of_fmap in H as (kv & H & _). done.
Qed.

Lemma manifest_modules_ascending_witness :
  StronglySorted (λ a b : str, str_lt b a = false)
    [lit "Az.Alpha"; lit "Az.Beta"].
Proof.
  refine (manifest_modules_ascending ex_argv ex_resolve_two ex_trace_two
            MANIFEST_PATH (lit "2.0.0")
            [ {| entry_n := lit "Get-AzThing"; entry_v := lit "Get";
                 entry_m := lit "Az.Alpha"; entry_c := lit "Other";
                 entry_e := true |};
              {| entry_n := lit "Get-AzThing"; entry_v := lit "Get";
                 entry_m := lit "Az.Beta"; entry_c := lit "Other";
                 entry_e := true |} ] _ _).
  - vm_compute; reflexivity.
  - apply list_elem_of_In. vm_compute. left. reflexivity.
Defined.

Lemma foldl_insert_field_keeps {A V} (f : A → option (str * V)) (l : list A)
    (m : gmap str V) (k : str) :
  is_Some (m !! k) → is_Some (foldl (insert_field f) m l !! k).
Proof.
  revert m. induction l as [|x l IH]; intros m Hm; [done|].
  cbn [foldl]. apply IH. unfold insert_field.
  destruct (f x) as [[k' v']|]; [|done].
  destruct (decide (k' = k)) as [->|]; [by rewrite lookup_insert_eq|].
  by rewrite lookup_insert_ne.
Qed.

Lemma foldl_insert_field_has {A V} (f : A → option (str * V)) (l : list A)
    (m : gmap str V) (x : A) (k : str) (v : V) :
  x ∈ l → f x = Some (k, v) → is_Some (foldl (insert_field f) m l !! k).
Proof.
  revert m. induction l as [|y l IH]; intros m Hx Hf.
  - by apply not_elem_of_nil in Hx.
  - cbn [foldl]. apply elem_of_cons in Hx as [->|Hx]; [|by apply IH].
    apply foldl_insert_field_keeps. unfold insert_field. rewrite Hf.
    by rewrite lookup_insert_eq.
Qed.

(** X20. Each module directory with at least one accepted document gets its
    module file, at the path made from the name of the directory. *)
Theorem main_writes_module_file (argv : list str) (resolve : str → option node)
    (tr : list event) (azps_dir d : node) :
  main argv resolve = (Done, tr) →
  resolved_run argv resolve azps_dir →
  d ∈ module_dirs azps_dir → accepted_in d ≠ [] →
  ∃ b, (module_path (node_name d), ModuleJson b) ∈ written tr.
Proof.
  intros (azps' & st & Hrun' & Hscan & ->)%main_Done Hrun Hd Hacc.
  assert (azps' = azps_dir) as ->.
  { destruct Hrun as (r1 & root1 & Ha1 & Hr1 & Hf1).
    destruct Hrun' as (r2 & root2 & Ha2 & Hr2 & Hf2). congruence. }
  apply scan_inr in Hscan as (mvm & _ & _ & _ & Hmods).
  assert (is_Some (modules_data st !! node_name d)) as [b Hb].
  { rewrite Hmods.
    assert (cmdlets_of d ≠ ∅) as Hne.
    { unfold cmdlets_of. destruct (accepted_in d) as [|doc docs]; [done|].
      intros Hempty.
      destruct (foldl_insert_field_has cmd_field (doc :: docs) ∅ doc
                  (name doc) (cmdlet_data_of doc)) as [x Hx]; [by left|done|].
      by rewrite Hempty, lookup_empty in Hx. }
    eapply (foldl_insert_field_has _ _ _ d); [done|].
    unfold bundle_field. by rewrite bool_decide_eq_false_2. }
  exists b. do 2 right. apply list_elem_of_fmap.
  exists (node_name d, b). split; [done|]. by apply elem_of_items_by_key.
Qed.

Lemma main_writes_module_file_witness :
  ∃ b, (module_path (lit "Az.Beta"), ModuleJson b) ∈ written ex_trace_two.
Proof.
  apply (main_writes_module_file ex_argv ex_resolve_two ex_trace_two ex_azps_two
           (Dir (lit "Az.Beta") [ File (lit "Get-AzThing.md") (ex_doc [] []) ])).
  - vm_compute; reflexivity.
  - exists (lit "docs"). eexists. split; [reflexivity|]. split; [reflexivity|].
    vm_compute; reflexivity.
  - apply list_elem_of_In. vm_compute. tauto.
  - vm_compute. discriminate.
Defined.

(** ** The clean-up of the description *)

Lemma sub_links_skip (k : nat) (s : str) :
  sub_links k s = sub_links 0 (drop k s).
Proof.
  revert k. induction s as [|c s IH]; intros [|k]; simpl; auto.
Qed.

Lemma span_by_until (f : ascii → bool) (a : str) (c : ascii) (rest : str) :
  Forall (λ x, f x = true) a → f c = false →
  span_by f (a ++ c :: rest) = (a, c :: rest).
Proof. intros Ha Hc. by apply span_by_spec. Qed.

Lemma link_match_at_link (label url post : str) :
  label ≠ [] → "]"%char ∉ label → url ≠ [] → ")"%char ∉ url →
  link_match_at (lit "[" ++ label ++ lit "](" ++ url ++ lit ")" ++ post)
  = Some (label, length label + length url + 4).
Proof.
  intros Hl Hnl Hu Hnu. unfold link_match_at.
  change (lit "[" ++ ?x) with ("["%char :: x). cbv beta iota.
  rewrite bool_decide_eq_true_2 by done.
  change (lit "](" ++ ?x) with ("]"%char :: "("%char :: x).
  rewrite span_by_until; first last.
  { by rewrite bool_decide_eq_true_2. }
  { apply Forall_forall. intros x Hx. apply negb_true_iff, bool_decide_eq_false_2.
    by intros ->. }
  rewrite (proj2 (nonempty_true label) Hl).
  change (starts_with (lit "](") ("]"%char :: "("%char :: ?x)) with true.
  cbn [andb drop]. change (lit ")" ++ ?x) with (")"%char :: x).
  rewrite drop_0, span_by_until; first last.
  { by rewrite bool_decide_eq_true_2. }
  { apply Forall_forall. intros x Hx. apply negb_true_iff, bool_decide_eq_false_2.
    by intros ->. }
  by rewrite (proj2 (nonempty_true url) Hu).
Qed.

(** X21. In the description, a link [[label](url)] is replaced by its
    label, and the text before the first opening bracket stays as it is:
    the replacement goes on after the link. *)
Theorem sub_links_replaces_link (pre label url post : str) :
  "["%char ∉ pre → label ≠ [] → "]"%char ∉ label → url ≠ [] → ")"%char ∉ url →
  sub_links 0 (pre ++ lit "[" ++ label ++ lit "](" ++ url ++ lit ")" ++ post)
  = pre ++ label ++ sub_links 0 post.
Proof.
  intros Hpre Hl Hnl Hu Hnu. induction pre as [|c pre IH]; cbn [app].
  - pose proof (link_match_at_link label url post Hl Hnl Hu Hnu) as Hm.
    change (lit "[" ++ ?x) with ("["%char :: x) in *.
    cbn [sub_links]. rewrite Hm. f_equal. rewrite sub_links_skip. f_equal.
    replace (Init.Nat.pred (length label + length url + 4))
      with (length label + (2 + (length url + 1))) by lia.
    rewrite <- !drop_drop, drop_app_length. cbn [drop app].
    change (lit "](" ++ ?x) with ("]"%char :: "("%char :: x). cbn [drop].
    by rewrite drop_0, drop_app_length.
  - cbn [sub_links]. unfold link_match_at at 1.
    rewrite bool_decide_eq_false_2 by (intros ->; apply Hpre; by left).
    f_equal. apply IH. intros ?. apply Hpre. by right.
Qed.

Lemma sub_links_replaces_link_witness :
  sub_links 0 (lit "Gets a " ++ lit "[" ++ lit "foo" ++ lit "](" ++ lit "http://x"
                 ++ lit ")" ++ lit " now.")
  = lit "Gets a " ++ lit "foo" ++ sub_links 0 (lit " now.").
Proof.
  apply sub_links_replaces_link; try done;
    apply (bool_decide_unpack _); vm_compute; reflexivity.
Defined.

(** ** The order of the scans and of the writes *)

(** The first scan lists the documents of a directory before those of its
    subdirectories, so the version that a module keeps is the one of the
    document nearest to the version directory. *)
Example rglob_md_order :
  node_name <$>
    rglob_md (Dir (lit "azps-1.0.0")
                [ Dir (lit "Az.Foo")
                    [ File (lit "deep.md") [];
                      Dir (lit "sub") [ File (lit "deeper.md") [] ] ];
                  File (lit "top.md") [];
                  Dir (lit "Az.Bar") [ File (lit "bar.md") [] ] ])
  = [lit "top.md"; lit "deep.md"; lit "deeper.md"; lit "bar.md"]
  ∧ version_loop
      (rglob_md (Dir (lit "azps-1.0.0")
                   [ Dir (lit "Az.Foo")
                       [ File (lit "Az.Foo.md")
                           (text_of ["---"; "Module Name: Az.Foo";
                                     "Module Version: 1.0"; "---"]) ];
                     File (lit "index.md")
                       (text_of ["---"; "Module Name: Az.Foo";
                                 "Module Version: 2.0"; "---"]) ])) ∅
    = inr ({[ lit "Az.Foo" := lit "2.0" ]} : gmap str str).
Proof. split; vm_compute; reflexivity. Qed.

(** The module files are written in the order of the names of the modules,
    whatever the order of the listing. *)
Example write_all_order :
  (written ex_trace_two).*1
  = [MANIFEST_PATH; DESCRIPTIONS_PATH;
     module_path (lit "Az.Alpha"); module_path (lit "Az.Beta")].
Proof. vm_compute; reflexivity. Qed.
